(** * uring_sendmsg.c: the userfaultfd-timed opcode swap on an io_uring slot

    A shallow embedding of [src/uring_sendmsg.c].  The program has two
    threads ([main] and [uffd_thread]) and talks to the kernel through
    system calls and through memory it shares with the kernel (the
    submission/completion rings, the SQE array and the page registered
    with userfaultfd).  The embedding is an executable transition system:

    - the two program threads are translated statement by statement from
      the source, one program counter per statement that touches shared
      state or performs a call;
    - the kernel is the environment.  What the program relies on (a
      blocking [read] on the userfaultfd, [UFFDIO_COPY] resolving a missing
      page exactly once, an io_uring consumer that reads the opcode, then
      dereferences the message header, then acts) is written down in
      [kernel_step] and marked as environment;
    - a schedule is a list of actions; every system call result is chosen
      by the schedule, so theorems quantified over schedules hold for
      every interleaving and every kernel reply. *)

From Stdlib Require Import ZArith List Bool Lia String.
Import ListNotations.
Local Open Scope Z_scope.

(** ** Constants of the Linux user API used by the source *)

Module Uapi.
(** [enum] of [linux/io_uring.h]: NOP, READV, WRITEV, FSYNC, READ_FIXED,
    WRITE_FIXED, POLL_ADD, POLL_REMOVE, SYNC_FILE_RANGE, SENDMSG, RECVMSG. *)
Definition IORING_OP_SENDMSG : Z := 9.
Definition IORING_OP_RECVMSG : Z := 10.
(** [errno] values reported by [UFFDIO_COPY]. *)
Definition EEXIST : Z := 17.
Definition EINVAL : Z := 22.
(** netlink / rtnetlink constants of the message built in [main]. *)
Definition AF_INET : Z := 2.
Definition RTM_NEWADDR : Z := 20.
Definition NLM_F_REQUEST : Z := 1.
Definition IFA_F_PERMANENT : Z := 128.
Definition IFA_LOCAL : Z := 2.
(** [sizeof(struct uffd_msg)]. *)
Definition sizeof_uffd_msg : Z := 32.
(** [sizeof(struct iovec)] on LP64: a pointer and a [size_t]. *)
Definition sizeof_iovec : Z := 16.
End Uapi.
Import Uapi.

(** Literals of the source. *)
Definition page_len : Z := 0x1000.           (* every mmap, the register range *)
Definition copy_len : Z := 0x1000.           (* uffdio_copy.len *)
Definition pad_len : Z := 0x1000.            (* char pad[0x1000] *)
Definition setup_entries : Z := 10.          (* io_uring_setup(entries=10) *)
Definition submit_slot : Z := 0.             (* the index in array[0] = 0, sqes[0] *)

(** ** Data *)

(** C [int]: 32 bits, two's complement, wrap-around written out. *)
Definition wrap_int (z : Z) : Z := (z + 2 ^ 31) mod 2 ^ 32 - 2 ^ 31.

(** [n] little-endian bytes of [v]. *)
Fixpoint le_bytes (n : nat) (v : Z) : list Z :=
  match n with
  | O => []
  | S n' => (v mod 256) :: le_bytes n' (v / 256)
  end.

(** [struct io_uring_sqe]. *)
Record io_uring_sqe := mk_sqe {
  opcode : Z;        (* __u8 *)
  flags : Z;         (* __u8 *)
  ioprio : Z;        (* __u16 *)
  fd : Z;            (* __s32 *)
  off : Z;           (* __u64 *)
  addr : Z;          (* __u64 *)
  len : Z;           (* __u32 *)
  msg_flags : Z;     (* __u32, the union of per-opcode flags *)
  user_data : Z;     (* __u64 *)
  buf_index : Z      (* the trailing union *)
}.

Definition zero_sqe : io_uring_sqe := mk_sqe 0 0 0 0 0 0 0 0 0 0.

Definition set_opcode (op : Z) (e : io_uring_sqe) : io_uring_sqe :=
  mk_sqe op (flags e) (ioprio e) (fd e) (off e) (addr e) (len e)
         (msg_flags e) (user_data e) (buf_index e).

(** [struct io_uring_cqe]. *)
Record io_uring_cqe := mk_cqe {
  cqe_user_data : Z;
  cqe_res : Z;
  cqe_flags : Z
}.

Definition zero_cqe : io_uring_cqe := mk_cqe 0 0 0.

(** [struct iovec]. *)
Record iovec := mk_iovec { iov_base : Z; iov_len : Z }.

Definition encode_iovec (v : iovec) : list Z :=
  le_bytes 8 (iov_base v) ++ le_bytes 8 (iov_len v).

(** The packed netlink message [msgbuf] of [main]: [struct nlmsghdr],
    [struct ifaddrmsg], [struct rtattr], four address bytes. *)
Definition sizeof_nlmsghdr : Z := 16.
Definition sizeof_ifaddrmsg : Z := 8.
Definition sizeof_rtattr : Z := 4.
Definition sizeof_msgbuf : Z := sizeof_nlmsghdr + sizeof_ifaddrmsg + sizeof_rtattr + 4.

Definition msgbuf_bytes : list Z :=
  (* hdr: nlmsg_len, nlmsg_type, nlmsg_flags, nlmsg_seq, nlmsg_pid *)
  le_bytes 4 sizeof_msgbuf ++ le_bytes 2 RTM_NEWADDR ++ le_bytes 2 NLM_F_REQUEST
  ++ le_bytes 4 0 ++ le_bytes 4 0
  (* body: ifa_family, ifa_prefixlen, ifa_flags, ifa_scope, ifa_index *)
  ++ [AF_INET; 32; IFA_F_PERMANENT; 0] ++ le_bytes 4 1
  (* opthdr: rta_len, rta_type *)
  ++ le_bytes 2 (sizeof_rtattr + 4) ++ le_bytes 2 IFA_LOCAL
  (* addr *)
  ++ [1; 2; 3; 4].

(** The union [vec] of [uffd_thread], seen through its [pad] member: the
    sixteen bytes of [.iov = real_iov] followed by the rest of the union,
    which the initializer leaves zero (gcc, the compiler of the source's
    build line, clears the whole object). *)
Definition vec_bytes (v : iovec) : list Z :=
  encode_iovec v ++ repeat 0 (Z.to_nat (pad_len - sizeof_iovec)).

(** Addresses of the objects on [main]'s stack whose address the program
    takes: [&msg], [&msgbuf], [&addr]. *)
Record frame := mk_frame { addr_msg : Z; addr_msgbuf : Z; addr_sockaddr : Z }.

(** ** Program counters, calls, failures, output, events *)

(** One label per statement of [main] that performs a call or touches
    shared state (source lines 89-165). *)
Inductive mpc :=
| M_io_uring_setup | M_mmap_sq_ring | M_mmap_cq_ring | M_mmap_sqes | M_mmap_iov
| M_userfaultfd | M_uffdio_api | M_uffdio_register | M_pthread_create | M_socket
| M_set_iov_base | M_set_iov_len | M_init_msg
| M_write_sqe | M_write_array | M_inc_tail
| M_enter_call | M_enter_wait | M_print_submitted
| M_read_cq_tail | M_print_cq_tail | M_check_cq_tail
| M_test_res | M_print_neg | M_print_pos | M_return | M_done.

(** [uffd_thread] (source lines 63-84); [H_off] before [pthread_create]. *)
Inductive hpc := H_off | H_read | H_print | H_mutate | H_vec | H_copy | H_done.

(** The calls wrapped in [SYSCHK]. *)
Inductive call :=
| C_io_uring_setup | C_mmap_sq_ring | C_mmap_cq_ring | C_mmap_sqes | C_mmap_iov
| C_userfaultfd | C_uffdio_api | C_uffdio_register | C_socket | C_io_uring_enter
| C_read_uffd | C_uffdio_copy.

(** How the process dies with status 1: [err(1, "SYSCHK(...)")], which
    reports [errno], or [errx(1, msg)]. *)
Inductive failure :=
| F_syschk (c : call) (errno : Z)
| F_errx (msg : string).

(** The [printf] calls, format and arguments. *)
Inductive line :=
| L_got_message                 (* "got userfaultfd message\n" *)
| L_submitted (n : Z)           (* "submitted %d, getevents done\n" *)
| L_cq_tail (n : Z)             (* "cq_tail = %d\n" *)
| L_result_err (res neg : Z)    (* "result: %d (%s)\n", res, strerror(neg) *)
| L_result (res : Z).           (* "result: %d\n" *)

(** Instrumentation: what happened, in order. *)
Inductive event :=
| EvSubmit                              (* main advanced the submission tail *)
| EvConsumerRead1 (op : Z)              (* consumer classified the request *)
| EvConsumerFault                       (* consumer touched the missing page *)
| EvFaultObserved                       (* read(uffd) returned a full message *)
| EvMutate                              (* sqes[0].opcode overwritten *)
| EvPopulate (dst len : Z) (src : list Z) (* ioctl(UFFDIO_COPY) issued *)
| EvConsumerResumed                     (* consumer got past the trapped page *)
| EvComplete (op ud res : Z)            (* consumer acted on [op], posted a CQE *)
| EvCqeLoad.                            (* main evaluated cqe->res *)

(** Environment side of the consumer. *)
Inductive kpc :=
| K_idle | K_classified (op : Z) | K_blocked (op : Z) | K_resumed (op : Z) | K_done.

Inductive kaction :=
| K_accept | K_touch | K_skip (res : Z) | K_resume | K_complete (res : Z) | K_interrupt.

(** A scheduling decision: which thread runs its next statement, with
    the value and [errno] the kernel gives to the call it performs (ignored
    by statements that perform none), or which step the kernel takes. *)
Inductive action :=
| A_main (r e : Z)
| A_handler (r e : Z)
| A_kernel (k : kaction).

(** ** State *)

(** Ring memory shared with the kernel: [sqes[0]], [array[0]] and the
    tail of the submission ring, the tail and first entry of the completion
    ring. *)
Record ring_mem := mk_ring {
  sqe0 : io_uring_sqe;
  sq_array0 : Z;
  sq_tail : Z;
  cq_tail : Z;
  cqe0 : io_uring_cqe
}.

(** File-scope variables [uffd], [iov], [real_iov]. *)
Record globals := mk_globals { uffd : Z; iov : Z; real_iov : iovec }.

(** Locals of [main]. *)
Record main_locals := mk_main {
  main_pc : mpc;
  uring_fd : Z;
  sock : Z;
  msg_iov : Z;          (* msg.msg_iov *)
  submitted : Z;
  cq_tail_l : Z         (* the local cq_tail *)
}.

(** Locals of [uffd_thread]. *)
Record handler_locals := mk_handler { handler_pc : hpc; vec : list Z }.

(** Kernel side (environment). *)
Record kernel := mk_kernel {
  kstate : kpc;
  uffd_range : option (Z * Z);    (* range registered with UFFDIO_REGISTER *)
  trap : option (list Z);         (* the page at [iov]: missing or its bytes *)
  fault_pending : bool;           (* a uffd message is queued *)
  entered : bool;                 (* main is inside io_uring_enter *)
  enter_ready : bool;             (* io_uring_enter may return *)
  k_user_data : Z                 (* user_data the consumer recorded *)
}.

(** What an observer of the process sees. *)
Record observ := mk_observ {
  out : list line;                (* stdout, oldest first *)
  exit_status : option Z;
  failed : option failure;
  log : list event                (* oldest first *)
}.

Record state := mk_state {
  frm : frame;
  ring : ring_mem;
  glob : globals;
  mainl : main_locals;
  hand : handler_locals;
  kern : kernel;
  obs : observ
}.

(** Field updates. *)
Definition set_sqe0 (v : io_uring_sqe) (r : ring_mem) : ring_mem :=
  mk_ring v (sq_array0 r) (sq_tail r) (cq_tail r) (cqe0 r).
Definition set_sq_array0 (v : Z) (r : ring_mem) : ring_mem :=
  mk_ring (sqe0 r) v (sq_tail r) (cq_tail r) (cqe0 r).
Definition set_sq_tail (v : Z) (r : ring_mem) : ring_mem :=
  mk_ring (sqe0 r) (sq_array0 r) v (cq_tail r) (cqe0 r).
Definition set_cq_tail (v : Z) (r : ring_mem) : ring_mem :=
  mk_ring (sqe0 r) (sq_array0 r) (sq_tail r) v (cqe0 r).
Definition set_cqe0 (v : io_uring_cqe) (r : ring_mem) : ring_mem :=
  mk_ring (sqe0 r) (sq_array0 r) (sq_tail r) (cq_tail r) v.

Definition set_uffd (v : Z) (g : globals) : globals := mk_globals v (iov g) (real_iov g).
Definition set_iov (v : Z) (g : globals) : globals := mk_globals (uffd g) v (real_iov g).
Definition set_real_iov (v : iovec) (g : globals) : globals := mk_globals (uffd g) (iov g) v.

Definition set_main_pc (v : mpc) (m : main_locals) : main_locals :=
  mk_main v (uring_fd m) (sock m) (msg_iov m) (submitted m) (cq_tail_l m).
Definition set_uring_fd (v : Z) (m : main_locals) : main_locals :=
  mk_main (main_pc m) v (sock m) (msg_iov m) (submitted m) (cq_tail_l m).
Definition set_sock (v : Z) (m : main_locals) : main_locals :=
  mk_main (main_pc m) (uring_fd m) v (msg_iov m) (submitted m) (cq_tail_l m).
Definition set_msg_iov (v : Z) (m : main_locals) : main_locals :=
  mk_main (main_pc m) (uring_fd m) (sock m) v (submitted m) (cq_tail_l m).
Definition set_submitted (v : Z) (m : main_locals) : main_locals :=
  mk_main (main_pc m) (uring_fd m) (sock m) (msg_iov m) v (cq_tail_l m).
Definition set_cq_tail_l (v : Z) (m : main_locals) : main_locals :=
  mk_main (main_pc m) (uring_fd m) (sock m) (msg_iov m) (submitted m) v.

Definition set_handler_pc (v : hpc) (h : handler_locals) : handler_locals :=
  mk_handler v (vec h).
Definition set_vec (v : list Z) (h : handler_locals) : handler_locals :=
  mk_handler (handler_pc h) v.

Definition set_kstate (v : kpc) (k : kernel) : kernel :=
  mk_kernel v (uffd_range k) (trap k) (fault_pending k) (entered k) (enter_ready k) (k_user_data k).
Definition set_uffd_range (v : option (Z * Z)) (k : kernel) : kernel :=
  mk_kernel (kstate k) v (trap k) (fault_pending k) (entered k) (enter_ready k) (k_user_data k).
Definition set_trap (v : option (list Z)) (k : kernel) : kernel :=
  mk_kernel (kstate k) (uffd_range k) v (fault_pending k) (entered k) (enter_ready k) (k_user_data k).
Definition set_fault_pending (v : bool) (k : kernel) : kernel :=
  mk_kernel (kstate k) (uffd_range k) (trap k) v (entered k) (enter_ready k) (k_user_data k).
Definition set_entered (v : bool) (k : kernel) : kernel :=
  mk_kernel (kstate k) (uffd_range k) (trap k) (fault_pending k) v (enter_ready k) (k_user_data k).
Definition set_enter_ready (v : bool) (k : kernel) : kernel :=
  mk_kernel (kstate k) (uffd_range k) (trap k) (fault_pending k) (entered k) v (k_user_data k).
Definition set_k_user_data (v : Z) (k : kernel) : kernel :=
  mk_kernel (kstate k) (uffd_range k) (trap k) (fault_pending k) (entered k) (enter_ready k) v.

Definition upd_ring (f : ring_mem -> ring_mem) (s : state) : state :=
  mk_state (frm s) (f (ring s)) (glob s) (mainl s) (hand s) (kern s) (obs s).
Definition upd_glob (f : globals -> globals) (s : state) : state :=
  mk_state (frm s) (ring s) (f (glob s)) (mainl s) (hand s) (kern s) (obs s).
Definition upd_main (f : main_locals -> main_locals) (s : state) : state :=
  mk_state (frm s) (ring s) (glob s) (f (mainl s)) (hand s) (kern s) (obs s).
Definition upd_hand (f : handler_locals -> handler_locals) (s : state) : state :=
  mk_state (frm s) (ring s) (glob s) (mainl s) (f (hand s)) (kern s) (obs s).
Definition upd_kern (f : kernel -> kernel) (s : state) : state :=
  mk_state (frm s) (ring s) (glob s) (mainl s) (hand s) (f (kern s)) (obs s).
Definition upd_obs (f : observ -> observ) (s : state) : state :=
  mk_state (frm s) (ring s) (glob s) (mainl s) (hand s) (kern s) (f (obs s)).

Definition print (l : line) : state -> state :=
  upd_obs (fun o => mk_observ (out o ++ [l]) (exit_status o) (failed o) (log o)).
Definition emit (e : event) : state -> state :=
  upd_obs (fun o => mk_observ (out o) (exit_status o) (failed o) (log o ++ [e])).
(** [err(1, ...)] / [errx(1, ...)]: the whole process exits with status 1. *)
Definition die (f : failure) : state -> state :=
  upd_obs (fun o => mk_observ (out o) (Some 1) (Some f) (log o)).
(** Falling off the end of [main]: the process exits with status 0. *)
Definition exit0 : state -> state :=
  upd_obs (fun o => mk_observ (out o) (Some 0) (failed o) (log o)).

Definition goto (p : mpc) : state -> state := upd_main (set_main_pc p).
Definition hgoto (p : hpc) : state -> state := upd_hand (set_handler_pc p).
Definition kgoto (p : kpc) : state -> state := upd_kern (set_kstate p).

(** The macro [SYSCHK(x)]: [err(1, ...)] when the call returned -1,
    otherwise the value. *)
Definition SYSCHK (c : call) (r e : Z) (s : state) (k : state) : state :=
  if r =? -1 then die (F_syschk c e) s else k.

(** ** The operations on shared memory *)

(** [sqes[0] = (struct io_uring_sqe) { ... }] (lines 147-151). *)
Definition write_sqe (d : io_uring_sqe) : ring_mem -> ring_mem := set_sqe0 d.
(** [((int* )(sq_ring + params.sq_off.array))[0] = 0] (line 152). *)
Definition write_array : ring_mem -> ring_mem := set_sq_array0 submit_slot.
(** [( *(int* )(sq_ring + params.sq_off.tail))++] (line 153). *)
Definition inc_tail (r : ring_mem) : ring_mem := set_sq_tail (wrap_int (sq_tail r + 1)) r.
(** The submission of a descriptor: lines 147-153 in sequence. *)
Definition submit (d : io_uring_sqe) (r : ring_mem) : ring_mem :=
  inc_tail (write_array (write_sqe d r)).

(** The descriptor [main] submits: every member not named in the compound
    literal is zero. *)
Definition benign_sqe (sock_fd msg_addr : Z) : io_uring_sqe :=
  mk_sqe IORING_OP_RECVMSG 0 0 sock_fd 0 msg_addr 0 0 0 0.

(** [sqes[0].opcode = IORING_OP_SENDMSG] (line 69). *)
Definition mutate_submitted (r : ring_mem) : ring_mem :=
  set_sqe0 (set_opcode IORING_OP_SENDMSG (sqe0 r)) r.

Definition in_range (a : Z) (rg : option (Z * Z)) : bool :=
  match rg with
  | Some (start, l) => (start <=? a) && (a <? start + l)
  | None => false
  end.

(** Environment: [ioctl(uffd, UFFDIO_COPY, {dst, src, len})].  The kernel
    resolves a missing page of the registered range with the bytes at
    [src]; a page that is already present is refused with [EEXIST], a range
    that is not the registered one with [EINVAL].  [(r, e)] is the reply the
    schedule proposes otherwise (-1 for any other refusal).  Returns the
    value, [errno] and the kernel state. *)
Definition uffdio_copy (dst l : Z) (src : list Z) (r e : Z) (k : kernel)
  : Z * Z * kernel :=
  match uffd_range k with
  | Some (start, rl) =>
      if (dst =? start) && (l =? rl) then
        match trap k with
        | Some _ => (-1, EEXIST, k)
        | None =>
            if r =? -1 then (-1, e, k)
            else (0, 0, set_trap (Some (firstn (Z.to_nat l) src)) k)
        end
      else (-1, EINVAL, k)
  | None => (-1, EINVAL, k)
  end.

(** Lines 77-82 of [uffd_thread]: fill [struct uffdio_copy] with
    [dst = iov], [src = &vec], [len = 0x1000], issue the ioctl under
    [SYSCHK].  The result is the failure, if any, and the kernel state. *)
Definition populate (dst : Z) (src : list Z) (r e : Z) (k : kernel)
  : option failure * kernel :=
  let '(ret, err, k') := uffdio_copy dst copy_len src r e k in
  if ret =? -1 then (Some (F_syschk C_uffdio_copy err), k') else (None, k').

(** ** The threads *)

(** [main], one statement per step.  [r] is the value the call of the
    statement returns, at the call's own type; where the source keeps it in
    an [int] ([uring_fd], [uffd], [submitted], or [cq_tail] read through an
    [int*]), the conversion is written out. *)
Definition main_step (r e : Z) (s : state) : state :=
  match main_pc (mainl s) with
  | M_io_uring_setup =>
      SYSCHK C_io_uring_setup r e s (goto M_mmap_sq_ring (upd_main (set_uring_fd (wrap_int r)) s))
  | M_mmap_sq_ring => SYSCHK C_mmap_sq_ring r e s (goto M_mmap_cq_ring s)
  | M_mmap_cq_ring => SYSCHK C_mmap_cq_ring r e s (goto M_mmap_sqes s)
  | M_mmap_sqes => SYSCHK C_mmap_sqes r e s (goto M_mmap_iov s)
  | M_mmap_iov => SYSCHK C_mmap_iov r e s (goto M_userfaultfd (upd_glob (set_iov r) s))
  | M_userfaultfd => SYSCHK C_userfaultfd r e s (goto M_uffdio_api (upd_glob (set_uffd (wrap_int r)) s))
  | M_uffdio_api => SYSCHK C_uffdio_api r e s (goto M_uffdio_register s)
  | M_uffdio_register =>
      SYSCHK C_uffdio_register r e s
        (goto M_pthread_create
           (upd_kern (set_uffd_range (Some (iov (glob s), page_len))) s))
  | M_pthread_create =>
      if r =? 0 then goto M_socket (hgoto H_read s)
      else die (F_errx "pthread_create") s
  | M_socket => SYSCHK C_socket r e s (goto M_set_iov_base (upd_main (set_sock (wrap_int r)) s))
  | M_set_iov_base =>
      goto M_set_iov_len
        (upd_glob (fun g => set_real_iov
                     (mk_iovec (addr_msgbuf (frm s)) (iov_len (real_iov g))) g) s)
  | M_set_iov_len =>
      goto M_init_msg
        (upd_glob (fun g => set_real_iov
                     (mk_iovec (iov_base (real_iov g)) sizeof_msgbuf) g) s)
  | M_init_msg => goto M_write_sqe (upd_main (set_msg_iov (iov (glob s))) s)
  | M_write_sqe =>
      goto M_write_array
        (upd_ring (write_sqe (benign_sqe (sock (mainl s)) (addr_msg (frm s)))) s)
  | M_write_array => goto M_inc_tail (upd_ring write_array s)
  | M_inc_tail => goto M_enter_call (emit EvSubmit (upd_ring inc_tail s))
  | M_enter_call =>
      SYSCHK C_io_uring_enter r e s (goto M_enter_wait (upd_kern (set_entered true) s))
  | M_enter_wait =>
      (* min_complete = 1: the call returns when the kernel lets it *)
      if r =? -1 then die (F_syschk C_io_uring_enter e) s
      else if enter_ready (kern s)
           then goto M_print_submitted
                  (upd_kern (set_entered false) (upd_main (set_submitted (wrap_int r)) s))
           else s
  | M_print_submitted => goto M_read_cq_tail (print (L_submitted (submitted (mainl s))) s)
  | M_read_cq_tail =>
      goto M_print_cq_tail (upd_main (set_cq_tail_l (wrap_int (cq_tail (ring s)))) s)
  | M_print_cq_tail => goto M_check_cq_tail (print (L_cq_tail (cq_tail_l (mainl s))) s)
  | M_check_cq_tail =>
      if cq_tail_l (mainl s) =? 1 then goto M_test_res s
      else die (F_errx "expected cq_tail==1") s
  | M_test_res =>
      (* struct io_uring_cqe *cqe = cq_ring + params.cq_off.cqes; if (cqe->res < 0) *)
      if cqe_res (cqe0 (ring s)) <? 0
      then goto M_print_neg (emit EvCqeLoad s)
      else goto M_print_pos (emit EvCqeLoad s)
  | M_print_neg =>
      (* strerror(-cqe->res): the negation is an int's *)
      goto M_return
        (print (L_result_err (cqe_res (cqe0 (ring s)))
                             (wrap_int (- cqe_res (cqe0 (ring s)))))
           (emit EvCqeLoad (emit EvCqeLoad s)))
  | M_print_pos =>
      goto M_return (print (L_result (cqe_res (cqe0 (ring s)))) (emit EvCqeLoad s))
  | M_return => goto M_done (exit0 s)
  | M_done => s
  end.

(** [uffd_thread], one statement per step. *)
Definition handler_step (r e : Z) (s : state) : state :=
  match handler_pc (hand s) with
  | H_off => s
  | H_read =>
      (* blocking read: it returns a message only once a fault is queued;
         int res = SYSCHK(read(...)); if (res != sizeof(msg)) *)
      if r =? -1 then die (F_syschk C_read_uffd e) s
      else if fault_pending (kern s) then
        if wrap_int r =? sizeof_uffd_msg
        then hgoto H_print (emit EvFaultObserved (upd_kern (set_fault_pending false) s))
        else die (F_errx "uffd read") (upd_kern (set_fault_pending false) s)
      else s
  | H_print => hgoto H_mutate (print L_got_message s)
  | H_mutate => hgoto H_vec (emit EvMutate (upd_ring mutate_submitted s))
  | H_vec => hgoto H_copy (upd_hand (set_vec (vec_bytes (real_iov (glob s)))) s)
  | H_copy =>
      let s1 := emit (EvPopulate (iov (glob s)) copy_len (vec (hand s))) s in
      match populate (iov (glob s)) (vec (hand s)) r e (kern s) with
      | (Some f, k') => die f (upd_kern (fun _ => k') s1)
      | (None, k') => hgoto H_done (upd_kern (fun _ => k') s1)
      end
  | H_done => s
  end.

(** Environment: the io_uring consumer and the fault path.  It takes the
    single submission once [main] is inside [io_uring_enter], reads the
    opcode, then dereferences the message header's [msg_iov]; on a missing
    registered page it queues a uffd message and stays blocked until the
    page is present; then it reads the opcode again, acts, and posts the
    completion with the [user_data] it recorded.  [K_skip] is a backend
    that completes without dereferencing; [K_interrupt] lets
    [io_uring_enter] return before a completion is there.  The record's
    [res] field is an [__s32]: what is posted is the result at that type. *)
Definition post_completion (op res : Z) (s : state) : state :=
  let ud := k_user_data (kern s) in
  kgoto K_done
    (upd_kern (set_enter_ready true)
       (emit (EvComplete op ud (wrap_int res))
          (upd_ring (fun rg => set_cq_tail ((cq_tail rg + 1) mod 2 ^ 32)
                                 (set_cqe0 (mk_cqe ud (wrap_int res) 0) rg)) s))).

Definition kernel_step (a : kaction) (s : state) : state :=
  match a, kstate (kern s) with
  | K_accept, K_idle =>
      if entered (kern s) && negb (sq_tail (ring s) =? 0)
         && (sq_array0 (ring s) =? 0)
      then kgoto (K_classified (opcode (sqe0 (ring s))))
             (upd_kern (set_k_user_data (user_data (sqe0 (ring s))))
                (emit (EvConsumerRead1 (opcode (sqe0 (ring s)))) s))
      else s
  | K_touch, K_classified op =>
      if addr (sqe0 (ring s)) =? addr_msg (frm s) then
        if in_range (msg_iov (mainl s)) (uffd_range (kern s))
           && match trap (kern s) with None => true | Some _ => false end
        then kgoto (K_blocked op)
               (upd_kern (set_fault_pending true) (emit EvConsumerFault s))
        else kgoto (K_resumed op) (emit EvConsumerResumed s)
      else s
  | K_skip res, K_classified op => post_completion op res s
  | K_resume, K_blocked op =>
      match trap (kern s) with
      | Some _ => kgoto (K_resumed op) (emit EvConsumerResumed s)
      | None => s
      end
  | K_complete res, K_resumed _ => post_completion (opcode (sqe0 (ring s))) res s
  | K_interrupt, K_classified _ | K_interrupt, K_blocked _
  | K_interrupt, K_resumed _ => upd_kern (set_enter_ready true) s
  | _, _ => s
  end.

(** One scheduling decision.  Nothing runs once the process has exited. *)
Definition step (s : state) (a : action) : state :=
  match exit_status (obs s) with
  | Some _ => s
  | None =>
      match a with
      | A_main r e => main_step r e s
      | A_handler r e => handler_step r e s
      | A_kernel k => kernel_step k s
      end
  end.

Definition init (f : frame) : state :=
  mk_state f
    (mk_ring zero_sqe 0 0 0 zero_cqe)
    (mk_globals (-1) 0 (mk_iovec 0 0))
    (mk_main M_io_uring_setup 0 0 0 0 0)
    (mk_handler H_off [])
    (mk_kernel K_idle None None false false false 0)
    (mk_observ [] None None []).

Definition run_from (s : state) (sched : list action) : state := fold_left step sched s.
Definition run (f : frame) (sched : list action) : state := run_from (init f) sched.

(** ** Concrete runs *)

Definition frame0 : frame := mk_frame 0x7ffc00001000 0x7ffc00001100 0x7ffc00001200.

(** [main] up to and including the call of [io_uring_enter]. *)
Definition sched_setup : list action :=
  [ A_main 3 0;                 (* io_uring_setup -> fd 3 *)
    A_main 0x7f0000001000 0;    (* mmap sq_ring *)
    A_main 0x7f0000002000 0;    (* mmap cq_ring *)
    A_main 0x7f0000003000 0;    (* mmap sqes *)
    A_main 0x7f0000004000 0;    (* mmap iov *)
    A_main 4 0;                 (* userfaultfd -> fd 4 *)
    A_main 0 0;                 (* UFFDIO_API *)
    A_main 0 0;                 (* UFFDIO_REGISTER *)
    A_main 0 0;                 (* pthread_create *)
    A_main 5 0;                 (* socket -> fd 5 *)
    A_main 0 0; A_main 0 0; A_main 0 0;   (* real_iov, msg *)
    A_main 0 0; A_main 0 0; A_main 0 0;   (* sqes[0], array[0], tail++ *)
    A_main 0 0 ].               (* io_uring_enter entered *)

(** The fault handler's five statements, every call succeeding. *)
Definition sched_handler : list action :=
  [ A_handler sizeof_uffd_msg 0; A_handler 0 0; A_handler 0 0; A_handler 0 0;
    A_handler 0 0 ].

(** [main] from the return of [io_uring_enter] to the end. *)
Definition sched_report : list action :=
  [ A_main 1 0; A_main 0 0; A_main 0 0; A_main 0 0; A_main 0 0; A_main 0 0;
    A_main 0 0; A_main 0 0 ].

(** The run of the source's transcript: the consumer faults, the handler
    swaps the opcode and fills the page, the consumer completes with [res]. *)
Definition sched_race (res : Z) : list action :=
  sched_setup ++ [A_kernel K_accept; A_kernel K_touch] ++ sched_handler
  ++ [A_kernel K_resume; A_kernel (K_complete res)] ++ sched_report.

(** A backend that completes without ever touching the trapped page. *)
Definition sched_no_fault (res : Z) : list action :=
  sched_setup ++ [A_kernel K_accept; A_kernel (K_skip res)] ++ sched_report.

(** ** The event log: kinds, sequence numbers, orderings *)

Inductive kind :=
| KSubmit | KRead1 | KFault | KObserved | KMutate | KPopulate | KResumed
| KComplete | KLoad.

Definition kind_of (e : event) : kind :=
  match e with
  | EvSubmit => KSubmit
  | EvConsumerRead1 _ => KRead1
  | EvConsumerFault => KFault
  | EvFaultObserved => KObserved
  | EvMutate => KMutate
  | EvPopulate _ _ _ => KPopulate
  | EvConsumerResumed => KResumed
  | EvComplete _ _ _ => KComplete
  | EvCqeLoad => KLoad
  end.

Definition kind_rank (k : kind) : nat :=
  match k with
  | KSubmit => 0 | KRead1 => 1 | KFault => 2 | KObserved => 3 | KMutate => 4
  | KPopulate => 5 | KResumed => 6 | KComplete => 7 | KLoad => 8
  end.

Definition kind_eqb (a b : kind) : bool := Nat.eqb (kind_rank a) (kind_rank b).

(** Does an event of kind [k] occur in [l]? *)
Definition has (k : kind) (l : list event) : bool :=
  existsb (fun e => kind_eqb (kind_of e) k) l.

(** How many events of kind [k] occur in [l]? *)
Definition count (k : kind) (l : list event) : nat :=
  List.length (filter (fun e => kind_eqb (kind_of e) k) l).

(** The sequence number of the first event of kind [k]: its position in
    the log. *)
Fixpoint seq_of (k : kind) (l : list event) : option nat :=
  match l with
  | [] => None
  | e :: t => if kind_eqb (kind_of e) k then Some O
              else option_map S (seq_of k t)
  end.

(** Every event of kind [k2] has an event of kind [k1] before it. *)
Definition precedes (k1 k2 : kind) (l : list event) : Prop :=
  forall l1 e l2, l = l1 ++ e :: l2 -> kind_of e = k2 -> has k1 l1 = true.

(** No event of kind [k2] has an event of kind [k1] before it. *)
Definition never_before (k1 k2 : kind) (l : list event) : Prop :=
  forall l1 e l2, l = l1 ++ e :: l2 -> kind_of e = k2 -> has k1 l1 = false.

Lemma kind_eqb_eq (a b : kind) : kind_eqb a b = true <-> a = b.
Proof.
  unfold kind_eqb. rewrite Nat.eqb_eq. split; [|intros ->; reflexivity].
  destruct a, b; simpl; intros H; try reflexivity; discriminate H.
Qed.

Lemma kind_eqb_refl (a : kind) : kind_eqb a a = true.
Proof. apply kind_eqb_eq. reflexivity. Qed.

Lemma has_app k l1 l2 : has k (l1 ++ l2) = has k l1 || has k l2.
Proof. unfold has. apply existsb_app. Qed.

Lemma has_snoc k l e : has k (l ++ [e]) = has k l || kind_eqb (kind_of e) k.
Proof. rewrite has_app. simpl. rewrite orb_false_r. reflexivity. Qed.

Lemma count_snoc k l e :
  count k (l ++ [e]) = (count k l + if kind_eqb (kind_of e) k then 1 else 0)%nat.
Proof.
  unfold count. rewrite filter_app, length_app. simpl.
  destruct (kind_eqb (kind_of e) k); reflexivity.
Qed.

Lemma count_zero_has k l : count k l = O <-> has k l = false.
Proof.
  unfold count, has. induction l as [|e t IH]; simpl; [tauto|].
  destruct (kind_eqb (kind_of e) k); simpl; [split; discriminate | exact IH].
Qed.

(** Splitting a list that ends in [e] at an inner element. *)
Lemma snoc_split {A} (l : list A) (e : A) l1 x l2 :
  l ++ [e] = l1 ++ x :: l2 ->
  (l2 = [] /\ l1 = l /\ x = e) \/ (exists l2', l2 = l2' ++ [e] /\ l = l1 ++ x :: l2').
Proof.
  intros H. destruct (@exists_last _ (x :: l2)) as [l' [y Hy]]; [discriminate|].
  rewrite Hy, app_assoc in H. apply app_inj_tail in H. destruct H as [Hl He]. subst y.
  destruct l2 as [|z l2].
  - left. destruct l' as [|a l'].
    + simpl in Hy. inversion Hy. subst. rewrite app_nil_r. auto.
    + destruct l'; discriminate Hy.
  - right. destruct (@exists_last _ (z :: l2)) as [m [w Hw]]; [discriminate|].
    rewrite Hw in Hy. change (x :: m ++ [w]) with ((x :: m) ++ [w]) in Hy.
    apply app_inj_tail in Hy. destruct Hy as [Hm Hwe]. subst w l'.
    exists m. split; [exact Hw | exact Hl].
Qed.

Lemma precedes_nil k1 k2 : precedes k1 k2 [].
Proof. intros l1 e l2 H. destruct l1; discriminate H. Qed.

Lemma precedes_snoc k1 k2 l e :
  precedes k1 k2 l ->
  kind_eqb (kind_of e) k2 = false \/ has k1 l = true ->
  precedes k1 k2 (l ++ [e]).
Proof.
  intros P Hc l1 x l2 Hs Hk.
  destruct (snoc_split _ _ _ _ _ Hs) as [[_ [-> ->]] | [l2' [_ ->]]].
  - destruct Hc as [Hne | Hh]; [|exact Hh].
    apply kind_eqb_eq in Hk. congruence.
  - eapply P; [reflexivity | exact Hk].
Qed.

Lemma never_before_nil k1 k2 : never_before k1 k2 [].
Proof. intros l1 e l2 H. destruct l1; discriminate H. Qed.

Lemma never_before_snoc k1 k2 l e :
  never_before k1 k2 l ->
  kind_eqb (kind_of e) k2 = false \/ has k1 l = false ->
  never_before k1 k2 (l ++ [e]).
Proof.
  intros P Hc l1 x l2 Hs Hk.
  destruct (snoc_split _ _ _ _ _ Hs) as [[_ [-> ->]] | [l2' [_ ->]]].
  - destruct Hc as [Hne | Hh]; [|exact Hh].
    apply kind_eqb_eq in Hk. congruence.
  - eapply P; [reflexivity | exact Hk].
Qed.

(** The first event of a kind splits the log. *)
Lemma seq_of_split k l j :
  seq_of k l = Some j ->
  exists l1 e l2, l = l1 ++ e :: l2 /\ kind_of e = k /\ List.length l1 = j.
Proof.
  revert j. induction l as [|x t IH]; simpl; intros j H; [discriminate|].
  destruct (kind_eqb (kind_of x) k) eqn:E.
  - inversion H. subst. exists [], x, t. apply kind_eqb_eq in E. auto.
  - destruct (seq_of k t) as [i|]; [|discriminate]. simpl in H. inversion H. subst.
    destruct (IH i eq_refl) as [l1 [e [l2 [-> [Hk Hl]]]]].
    exists (x :: l1), e, l2. simpl. auto.
Qed.


Lemma seq_of_has k l : has k l = true <-> exists i, seq_of k l = Some i.
Proof.
  induction l as [|x t IH]; simpl.
  - split; [discriminate | intros [i H]; discriminate].
  - destruct (kind_eqb (kind_of x) k); simpl.
    + split; eauto.
    + rewrite IH. split; intros [i H].
      * rewrite H. simpl. eauto.
      * destruct (seq_of k t); [eauto | discriminate].
Qed.


Lemma never_before_seq k1 k2 l i j :
  never_before k1 k2 l -> seq_of k1 l = Some i -> seq_of k2 l = Some j -> (j <= i)%nat.
Proof.
  intros P Hi Hj. destruct (seq_of_split _ _ _ Hj) as [l1 [e [l2 [-> [Hk Hl]]]]].
  specialize (P l1 e l2 eq_refl Hk). subst j.
  destruct (Nat.le_gt_cases (List.length l1) i) as [|Hlt]; [assumption|].
  exfalso. revert i Hi Hlt P. clear. induction l1 as [|x t IH]; simpl; intros i Hi Hlt P.
  - lia.
  - destruct (kind_eqb (kind_of x) k1); [discriminate P|]. simpl in P.
    destruct (seq_of k1 (t ++ e :: l2)) as [i'|] eqn:E; [|discriminate].
    simpl in Hi. inversion Hi. subst. apply (IH i' eq_refl); [lia | exact P].
Qed.

(** ** The invariant of the transition system *)

(** Progress of [main], in program order. *)
Definition main_rank (p : mpc) : nat :=
  match p with
  | M_io_uring_setup => 0 | M_mmap_sq_ring => 1 | M_mmap_cq_ring => 2
  | M_mmap_sqes => 3 | M_mmap_iov => 4 | M_userfaultfd => 5 | M_uffdio_api => 6
  | M_uffdio_register => 7 | M_pthread_create => 8 | M_socket => 9
  | M_set_iov_base => 10 | M_set_iov_len => 11 | M_init_msg => 12
  | M_write_sqe => 13 | M_write_array => 14 | M_inc_tail => 15
  | M_enter_call => 16 | M_enter_wait => 17 | M_print_submitted => 18
  | M_read_cq_tail => 19 | M_print_cq_tail => 20 | M_check_cq_tail => 21
  | M_test_res => 22 | M_print_neg => 23 | M_print_pos => 23
  | M_return => 24 | M_done => 25
  end.

Definition hpc_off (h : hpc) : bool := match h with H_off => true | _ => false end.
Definition hpc_done (h : hpc) : bool := match h with H_done => true | _ => false end.
(** The handler has not seen a fault yet. *)
Definition hpc_waiting (h : hpc) : bool :=
  match h with H_off | H_read => true | _ => false end.
(** The handler is past the opcode overwrite. *)
Definition hpc_mutated (h : hpc) : bool :=
  match h with H_vec | H_copy | H_done => true | _ => false end.
(** The handler has built [vec]. *)
Definition hpc_has_vec (h : hpc) : bool :=
  match h with H_copy | H_done => true | _ => false end.

Definition k_is_idle (k : kpc) : bool := match k with K_idle => true | _ => false end.
Definition k_is_done (k : kpc) : bool := match k with K_done => true | _ => false end.
Definition k_is_blocked (k : kpc) : bool := match k with K_blocked _ => true | _ => false end.
Definition k_early (k : kpc) : bool :=
  match k with K_idle | K_classified _ => true | _ => false end.

Definition copy_failed (f : option failure) : bool :=
  match f with Some (F_syschk C_uffdio_copy _) => true | _ => false end.

(** The iovec [main] stores in [real_iov]: [{&msgbuf, sizeof(msgbuf)}]. *)
Definition true_iov (f : frame) : iovec := mk_iovec (addr_msgbuf f) sizeof_msgbuf.

(** How the consumer, the handler, the queued fault message and the
    trapped page fit together. *)
Definition compat (k : kpc) (h : hpc) (fp : bool) (tr : option (list Z)) (vc : list Z) : Prop :=
  match h with
  | H_off | H_read =>
      tr = None /\
      match k with
      | K_idle | K_classified _ | K_done => fp = false
      | K_blocked _ => True
      | K_resumed _ => False
      end
  | H_print | H_mutate | H_vec | H_copy =>
      tr = None /\ fp = false /\ k_is_blocked k = true
  | H_done => tr = Some vc /\ fp = false /\ k_early k = false
  end.

Definition fault_count (k : kpc) (h : hpc) : nat :=
  match k with
  | K_idle | K_classified _ => 0
  | K_blocked _ | K_resumed _ => 1
  | K_done => if hpc_done h then 1 else 0
  end.

Definition resumed_count (k : kpc) (h : hpc) : nat :=
  match k with
  | K_resumed _ => 1
  | K_done => if hpc_done h then 1 else 0
  | _ => 0
  end.

Definition populate_count (h : hpc) (f : option failure) : nat :=
  match h with
  | H_done => 1
  | H_copy => if copy_failed f then 1 else 0
  | _ => 0
  end.

(** Evaluations of [cqe->res] by [main] so far. *)
Definition loads (p : mpc) (res : Z) : nat :=
  match p with
  | M_print_neg | M_print_pos => 1
  | M_return | M_done => if res <? 0 then 3 else 2
  | _ => 0
  end.

(** What every issued [UFFDIO_COPY] carries. *)
Definition populate_ok (f : frame) (base : Z) (e : event) : Prop :=
  match e with
  | EvPopulate dst l src => dst = base /\ l = copy_len /\ src = vec_bytes (true_iov f)
  | _ => True
  end.

Definition exit_ok (ex : option Z) (fl : option failure) (p : mpc) : Prop :=
  match ex with
  | None => fl = None /\ p <> M_done
  | Some c => (c = 0 /\ p = M_done /\ fl = None) \/ (c = 1 /\ fl <> None /\ p <> M_done)
  end.

Record Inv (s : state) : Prop := mk_Inv {
  (* what main has set up so far *)
  i_hoff : hpc_off (handler_pc (hand s)) = (main_rank (main_pc (mainl s)) <? 9)%nat;
  i_range : uffd_range (kern s) =
            if (8 <=? main_rank (main_pc (mainl s)))%nat
            then Some (iov (glob s), page_len) else None;
  i_riov : real_iov (glob s) =
           mk_iovec (if (11 <=? main_rank (main_pc (mainl s)))%nat
                     then addr_msgbuf (frm s) else 0)
                    (if (12 <=? main_rank (main_pc (mainl s)))%nat
                     then sizeof_msgbuf else 0);
  i_miov : msg_iov (mainl s) =
           if (13 <=? main_rank (main_pc (mainl s)))%nat then iov (glob s) else 0;
  i_sqe : sqe0 (ring s) =
          if (14 <=? main_rank (main_pc (mainl s)))%nat
          then set_opcode (if hpc_mutated (handler_pc (hand s))
                           then IORING_OP_SENDMSG else IORING_OP_RECVMSG)
                          (benign_sqe (sock (mainl s)) (addr_msg (frm s)))
          else zero_sqe;
  i_arr : sq_array0 (ring s) = 0;
  i_sqt : sq_tail (ring s) = if (16 <=? main_rank (main_pc (mainl s)))%nat then 1 else 0;
  i_ent : entered (kern s) = (main_rank (main_pc (mainl s)) =? 17)%nat;
  i_kmain : k_is_idle (kstate (kern s)) || (17 <=? main_rank (main_pc (mainl s)))%nat = true;
  (* the completion ring *)
  i_cqt : cq_tail (ring s) = if k_is_done (kstate (kern s)) then 1 else 0;
  i_cqe_ud : cqe_user_data (cqe0 (ring s)) = 0;
  i_kud : k_user_data (kern s) = 0;
  i_cqtl : (20 <=? main_rank (main_pc (mainl s)))%nat = true ->
           cq_tail_l (mainl s) = 1 -> k_is_done (kstate (kern s)) = true;
  i_cqtl1 : (22 <=? main_rank (main_pc (mainl s)))%nat = true -> cq_tail_l (mainl s) = 1;
  i_res : match main_pc (mainl s) with
          | M_print_neg => cqe_res (cqe0 (ring s)) < 0
          | M_print_pos => 0 <= cqe_res (cqe0 (ring s))
          | _ => True
          end;
  (* the rendezvous *)
  i_compat : compat (kstate (kern s)) (handler_pc (hand s)) (fault_pending (kern s))
                    (trap (kern s)) (vec (hand s));
  i_vec : vec (hand s) = if hpc_has_vec (handler_pc (hand s))
                         then vec_bytes (true_iov (frm s)) else [];
  (* how often each kind of event has happened *)
  i_c_submit : count KSubmit (log (obs s)) =
               if (16 <=? main_rank (main_pc (mainl s)))%nat then 1%nat else 0%nat;
  i_c_read1 : count KRead1 (log (obs s)) =
              if k_is_idle (kstate (kern s)) then 0%nat else 1%nat;
  i_c_fault : count KFault (log (obs s)) =
              fault_count (kstate (kern s)) (handler_pc (hand s));
  i_c_obs : count KObserved (log (obs s)) =
            if hpc_waiting (handler_pc (hand s)) then 0%nat else 1%nat;
  i_c_mut : count KMutate (log (obs s)) =
            if hpc_mutated (handler_pc (hand s)) then 1%nat else 0%nat;
  i_c_pop : count KPopulate (log (obs s)) =
            populate_count (handler_pc (hand s)) (failed (obs s));
  i_c_res : count KResumed (log (obs s)) =
            resumed_count (kstate (kern s)) (handler_pc (hand s));
  i_c_comp : count KComplete (log (obs s)) =
             if k_is_done (kstate (kern s)) then 1%nat else 0%nat;
  i_c_load : count KLoad (log (obs s)) =
             loads (main_pc (mainl s)) (cqe_res (cqe0 (ring s)));
  (* in which order *)
  i_o_submit : precedes KSubmit KRead1 (log (obs s));
  i_o_read1 : precedes KRead1 KFault (log (obs s));
  i_o_fault : precedes KFault KObserved (log (obs s));
  i_o_obs : precedes KObserved KMutate (log (obs s));
  i_o_mut : precedes KMutate KPopulate (log (obs s));
  i_o_pop : precedes KPopulate KResumed (log (obs s));
  i_o_comp_mut : never_before KComplete KMutate (log (obs s));
  i_o_comp_pop : never_before KComplete KPopulate (log (obs s));
  (* what was copied, how the process ended *)
  i_pop : Forall (populate_ok (frm s) (iov (glob s))) (log (obs s));
  i_exit : exit_ok (exit_status (obs s)) (failed (obs s)) (main_pc (mainl s))
}.

(** ** The invariant holds in every reachable state *)

Lemma has_count k l : has k l = negb (Nat.eqb (count k l) 0).
Proof.
  unfold has, count. induction l as [|e t IH]; simpl; [reflexivity|].
  destruct (kind_eqb (kind_of e) k); simpl; [reflexivity | exact IH].
Qed.

Lemma wrap_int_small z : - 2 ^ 31 <= z < 2 ^ 31 -> wrap_int z = z.
Proof. intros H. unfold wrap_int. rewrite Z.mod_small; lia. Qed.

Lemma vec_bytes_length v : List.length (vec_bytes v) = Z.to_nat pad_len.
Proof. unfold vec_bytes. rewrite length_app, repeat_length. reflexivity. Qed.

Lemma firstn_vec_bytes v : firstn (Z.to_nat copy_len) (vec_bytes v) = vec_bytes v.
Proof. apply firstn_all2. rewrite vec_bytes_length. reflexivity. Qed.

Lemma in_range_base a : in_range a (Some (a, page_len)) = true.
Proof.
  unfold in_range, page_len. apply andb_true_intro. split.
  - apply Z.leb_le. lia.
  - apply Z.ltb_lt. lia.
Qed.

Lemma Forall_snoc {A} (P : A -> Prop) l e : Forall P l -> P e -> Forall P (l ++ [e]).
Proof. intros H1 H2. apply Forall_app. split; [exact H1 | constructor; [exact H2 | constructor]]. Qed.

Lemma populate_ok_any_base f b b' l :
  count KPopulate l = O -> Forall (populate_ok f b) l -> Forall (populate_ok f b') l.
Proof.
  induction l as [|e t IH]; intros Hc HF; [constructor|].
  inversion HF; subst. unfold count in Hc. simpl in Hc.
  destruct e; simpl in Hc; try discriminate Hc; constructor; try exact I; apply IH; assumption.
Qed.

Lemma inv_init f : Inv (init f).
Proof.
  constructor; simpl; try reflexivity; try (apply precedes_nil); try (apply never_before_nil);
    try discriminate; auto.
  split; [reflexivity | discriminate].
Qed.

Lemma copy_len_page_len : (copy_len =? page_len) = true.
Proof. reflexivity. Qed.

Opaque vec_bytes wrap_int count precedes never_before copy_len page_len pad_len.


Ltac use_counts :=
  repeat match goal with
    | H : count ?k ?l = _ |- context [count ?k ?l] => rewrite H
    end.

Ltac has_fin := rewrite has_count; use_counts; reflexivity.

Ltac order_snoc :=
  repeat first
    [ assumption
    | apply precedes_snoc; [ | first [ left; reflexivity | right; has_fin ] ]
    | apply never_before_snoc; [ | first [ left; reflexivity | right; has_fin ] ]
    | apply Forall_snoc; [ | first [ exact I | simpl; repeat split; congruence ] ] ].

Ltac break_step :=
  repeat match goal with
    | |- Inv (if ?b then _ else _) => destruct b eqn:?
    | |- Inv (match ?x with _ => _ end) => destruct x eqn:?
    end.

Ltac norm := cbv [main_rank Nat.leb Nat.ltb Nat.eqb] in *; simpl in *.

Ltac exit_fin :=
  solve [ split; [reflexivity | discriminate]
        | right; repeat split; discriminate
        | left; repeat split; reflexivity ].

Lemma wrap_int_1 : wrap_int (0 + 1) = 1.
Proof. reflexivity. Qed.

Lemma wrap_int_0 : wrap_int 0 = 0.
Proof. reflexivity. Qed.

Ltac bool_hyps :=
  repeat match goal with
    | H : (_ <? _) = true |- _ => apply Z.ltb_lt in H
    | H : (_ <? _) = false |- _ => apply Z.ltb_ge in H
    | H : (_ =? _) = true |- _ => apply Z.eqb_eq in H
    | H : (_ =? _) = false |- _ => apply Z.eqb_neq in H
    end.

Ltac split_ifs :=
  repeat match goal with
    | |- context [if ?b then _ else _] => destruct b eqn:?
    end.

Ltac easy_fin :=
  first [ assumption | reflexivity | discriminate | lia | congruence
        | apply orb_true_r ].

Ltac proto_fin :=
  match goal with
  | kst : kpc, hp : hpc |- _ =>
      destruct kst; destruct hp; simpl in *;
      solve [ intuition (try discriminate; try congruence; try lia) ]
  end.

Ltac fin :=
  try exit_fin; norm; rewrite ?wrap_int_1; use_counts; simpl;
  first [ easy_fin
        | intros; bool_hyps; subst; easy_fin
        | intros; bool_hyps; split_ifs; bool_hyps; easy_fin
        | solve [ cbv [compat k_is_blocked k_early] in *; intuition (discriminate || congruence) ]
        | proto_fin ].

Lemma inv_main_step s r e :
  Inv s -> exit_status (obs s) = None -> Inv (main_step r e s).
Proof.
  intros I Hex.
  destruct s as [f [sqe arr sqt cqt cqe] [ufd iova riov] [pc ufd' sk miov subm cqtl]
                   [hp vc] [kst rng trp fp ent rdy kud] [o ex fl lg]].
  destruct I as [H_hoff H_range H_riov H_miov H_sqe H_arr H_sqt H_ent H_kmain H_cqt
    H_cqe_ud H_kud H_cqtl H_cqtl1 H_res H_compat H_vec H_c_submit H_c_read1 H_c_fault
    H_c_obs H_c_mut H_c_pop H_c_res H_c_comp H_c_load H_o_submit H_o_read1 H_o_fault H_o_obs
    H_o_mut H_o_pop H_o_comp_mut H_o_comp_pop H_pop H_exit];
  simpl in *. subst ex. destruct H_exit as [Hfl Hnd]. subst fl.
  unfold main_step; simpl.
  destruct pc; unfold SYSCHK; simpl; break_step; norm.
  all: try (exfalso; apply Hnd; reflexivity).
  all: constructor; norm.
  all: try assumption.
  all: try discriminate.
  all: try exit_fin.
  all: rewrite ?count_snoc; simpl.
  all: try assumption.
  all: try reflexivity.
  all: order_snoc.
  all: try (destruct hp; simpl in *; first [assumption | discriminate | reflexivity]).
  all: try (rewrite ?Nat.add_0_r; assumption).
  all: try fin.
  - apply populate_ok_any_base with (b := iova); [|assumption].
    rewrite H_c_pop. destruct hp; try discriminate H_hoff. reflexivity.
  - intros _ Hw. subst cqt. destruct (k_is_done kst); [reflexivity|].
    rewrite wrap_int_0 in Hw. discriminate Hw.
Qed.

(** Case analysis on the other threads, keeping the combinations the
    invariant allows. *)
Ltac prune :=
  norm;
  repeat match goal with H : _ /\ _ |- _ => destruct H end;
  try match goal with
      | H : false = true |- _ => discriminate H
      | H : true = false |- _ => discriminate H
      | H : False |- _ => destruct H
      end.

Ltac solve_inv :=
  constructor; norm;
  try assumption; try discriminate; try exit_fin;
  rewrite ?count_snoc; simpl;
  try assumption; try reflexivity;
  order_snoc;
  try (rewrite ?Nat.add_0_r; assumption);
  try fin.

Lemma inv_handler_step s r e :
  Inv s -> exit_status (obs s) = None -> Inv (handler_step r e s).
Proof.
  intros I0 Hex. pose proof I0 as I.
  destruct s as [f [sqe arr sqt cqt cqe] [ufd iova riov] [pc ufd' sk miov subm cqtl]
                   [hp vc] [kst rng trp fp ent rdy kud] [o ex fl lg]].
  destruct I as [H_hoff H_range H_riov H_miov H_sqe H_arr H_sqt H_ent H_kmain H_cqt
    H_cqe_ud H_kud H_cqtl H_cqtl1 H_res H_compat H_vec H_c_submit H_c_read1 H_c_fault
    H_c_obs H_c_mut H_c_pop H_c_res H_c_comp H_c_load H_o_submit H_o_read1 H_o_fault H_o_obs
    H_o_mut H_o_pop H_o_comp_mut H_o_comp_pop H_pop H_exit];
  simpl in *. subst ex. destruct H_exit as [Hfl Hnd]. subst fl.
  unfold handler_step; simpl.
  destruct hp; try exact I0; clear I0.
  - (* read *)
    break_step; try (constructor; simpl; assumption).
    all: destruct kst; prune.
    all: destruct pc; prune.
    all: solve_inv.
  - (* print *)
    destruct kst; prune. all: destruct pc; prune. all: solve_inv.
  - (* mutate *)
    destruct kst; prune. all: destruct pc; prune. all: solve_inv.
  - (* vec *)
    destruct kst; prune. all: destruct pc; prune. all: solve_inv.
  - (* copy *)
    destruct kst; prune. all: destruct pc; prune.
    all: unfold populate, uffdio_copy; simpl; subst rng; rewrite Z.eqb_refl, copy_len_page_len; simpl.
    all: subst trp vc.
    all: destruct (r =? -1) eqn:Hr; simpl; rewrite ?firstn_vec_bytes.
    all: solve_inv.
Qed.

Lemma cq_inc_0 : (0 + 1) mod 2 ^ 32 = 1.
Proof. reflexivity. Qed.

Arguments in_range : simpl never.

Lemma inv_kernel_step s k :
  Inv s -> exit_status (obs s) = None -> Inv (kernel_step k s).
Proof.
  intros I0 Hex. pose proof I0 as I.
  destruct s as [f [sqe arr sqt cqt cqe] [ufd iova riov] [pc ufd' sk miov subm cqtl]
                   [hp vc] [kst rng trp fp ent rdy kud] [o ex fl lg]].
  destruct I as [H_hoff H_range H_riov H_miov H_sqe H_arr H_sqt H_ent H_kmain H_cqt
    H_cqe_ud H_kud H_cqtl H_cqtl1 H_res H_compat H_vec H_c_submit H_c_read1 H_c_fault
    H_c_obs H_c_mut H_c_pop H_c_res H_c_comp H_c_load H_o_submit H_o_read1 H_o_fault H_o_obs
    H_o_mut H_o_pop H_o_comp_mut H_o_comp_pop H_pop H_exit];
  simpl in *. subst ex. destruct H_exit as [Hfl Hnd]. subst fl.
  unfold kernel_step, post_completion; simpl.
  destruct k; destruct kst; try exact I0; clear I0.
  all: destruct hp; prune.
  all: destruct pc; prune.
  all: subst; rewrite ?in_range_base; simpl; rewrite ?Z.eqb_refl, ?in_range_base, ?cq_inc_0; simpl.
  all: break_step.
  all: solve_inv.
Qed.

Lemma inv_step s a : Inv s -> Inv (step s a).
Proof.
  intros I. unfold step. destruct (exit_status (obs s)) eqn:Hex; [exact I|].
  destruct a as [r e | r e | k].
  - apply inv_main_step; assumption.
  - apply inv_handler_step; assumption.
  - apply inv_kernel_step; assumption.
Qed.

Lemma inv_run_from s sched : Inv s -> Inv (run_from s sched).
Proof.
  revert s. induction sched as [|a t IH]; intros s I; simpl; [exact I|].
  apply IH. apply inv_step. exact I.
Qed.

Lemma inv_run f sched : Inv (run f sched).
Proof. apply inv_run_from. apply inv_init. Qed.

Transparent vec_bytes wrap_int count precedes never_before copy_len page_len pad_len.

Lemma run_from_app s l1 l2 : run_from s (l1 ++ l2) = run_from (run_from s l1) l2.
Proof. unfold run_from. apply fold_left_app. Qed.

Lemma run_snoc f sched a : run f (sched ++ [a]) = step (run f sched) a.
Proof. unfold run. rewrite run_from_app. reflexivity. Qed.

Lemma seq_of_kind_inj k1 k2 l i :
  seq_of k1 l = Some i -> seq_of k2 l = Some i -> k1 = k2.
Proof.
  revert i. induction l as [|x t IH]; simpl; intros i H1 H2; [discriminate|].
  destruct (kind_eqb (kind_of x) k1) eqn:E1, (kind_eqb (kind_of x) k2) eqn:E2.
  - apply kind_eqb_eq in E1, E2. congruence.
  - destruct (seq_of k2 t); simpl in H2; [|discriminate].
    inversion H1; subst. discriminate H2.
  - destruct (seq_of k1 t); simpl in H1; [|discriminate].
    inversion H2; subst. discriminate H1.
  - destruct (seq_of k1 t) as [i1|]; simpl in H1; [|discriminate].
    destruct (seq_of k2 t) as [i2|]; simpl in H2; [|discriminate].
    inversion H1; inversion H2; subst. apply (IH i2); congruence.
Qed.

Lemma count_pos_has k l : (0 < count k l)%nat <-> has k l = true.
Proof.
  rewrite has_count. destruct (count k l); simpl; split; intros H; try lia; discriminate.
Qed.

Ltac break_ifs :=
  repeat match goal with
    | |- context [if ?c then _ else _] => destruct c eqn:?
    | |- context [match ?c with Some _ => _ | None => _ end] => destruct c eqn:?
    end.

(** The stack frame of [main] is fixed for the whole run. *)
Lemma frm_step s a : frm (step s a) = frm s.
Proof.
  unfold step. destruct (exit_status (obs s)); [reflexivity|].
  destruct a as [r e|r e|k].
  - unfold main_step, SYSCHK. destruct (main_pc (mainl s)); break_ifs; reflexivity.
  - unfold handler_step.
    destruct (handler_pc (hand s)); try (break_ifs; reflexivity).
    destruct (populate _ _ _ _ _) as [[fl|] k']; reflexivity.
  - unfold kernel_step, post_completion.
    destruct k, (kstate (kern s)); break_ifs; reflexivity.
Qed.

Lemma frm_run f sched : frm (run f sched) = f.
Proof.
  unfold run. assert (H : forall s, frm (run_from s sched) = frm s).
  { induction sched as [|a t IH]; intros s; simpl; [reflexivity|].
    rewrite IH. apply frm_step. }
  rewrite H. reflexivity.
Qed.

(** Nothing happens after the process has exited. *)
Lemma step_exited s a c : exit_status (obs s) = Some c -> step s a = s.
Proof. intros H. unfold step. rewrite H. reflexivity. Qed.

Lemma run_from_exited s sched c :
  exit_status (obs s) = Some c -> run_from s sched = s.
Proof.
  intros H. induction sched as [|a t IH]; [reflexivity|].
  simpl. rewrite (step_exited _ _ _ H). exact IH.
Qed.

Ltac break_conds :=
  repeat match goal with
    | |- context [if (?x =? ?y) then _ else _] => destruct (x =? y) eqn:?
    | |- context [if (?x <? ?y) then _ else _] => destruct (x <? y) eqn:?
    | |- context [if enter_ready ?k then _ else _] => destruct (enter_ready k) eqn:?
    end.

(** Only [main] moves its program counter. *)
Lemma main_pc_step s a :
  main_pc (mainl (step s a)) =
  match exit_status (obs s), a with
  | None, A_main r e => main_pc (mainl (main_step r e s))
  | _, _ => main_pc (mainl s)
  end.
Proof.
  unfold step. destruct (exit_status (obs s)); [reflexivity|].
  destruct a as [r e|r e|k]; [reflexivity| |].
  - unfold handler_step.
    destruct (handler_pc (hand s)); try (break_ifs; reflexivity).
    destruct (populate _ _ _ _ _) as [[fl|] k']; reflexivity.
  - unfold kernel_step, post_completion.
    destruct k, (kstate (kern s)); break_ifs; reflexivity.
Qed.

Lemma has_in k l : has k l = true -> exists e, In e l /\ kind_of e = k.
Proof.
  unfold has. intros H. apply existsb_exists in H. destruct H as [e [Hin Hk]].
  exists e. split; [exact Hin | apply kind_eqb_eq; exact Hk].
Qed.

Lemma in_has e l : In e l -> has (kind_of e) l = true.
Proof.
  intros H. unfold has. apply existsb_exists. exists e.
  split; [exact H | apply kind_eqb_refl].
Qed.

(** ** A second invariant: value ranges, failure sites, payloads, output *)

(** The values of a C [int] (and of an [__s32]). *)
Definition int_range (z : Z) : Prop := - 2 ^ 31 <= z < 2 ^ 31.

(** Where a failure leaves the thread that met it. *)
Definition stopped_at (fl : failure) (p : mpc) (h : hpc) (cqtl : Z) : Prop :=
  match fl with
  | F_syschk C_io_uring_setup _ => p = M_io_uring_setup
  | F_syschk C_mmap_sq_ring _ => p = M_mmap_sq_ring
  | F_syschk C_mmap_cq_ring _ => p = M_mmap_cq_ring
  | F_syschk C_mmap_sqes _ => p = M_mmap_sqes
  | F_syschk C_mmap_iov _ => p = M_mmap_iov
  | F_syschk C_userfaultfd _ => p = M_userfaultfd
  | F_syschk C_uffdio_api _ => p = M_uffdio_api
  | F_syschk C_uffdio_register _ => p = M_uffdio_register
  | F_syschk C_socket _ => p = M_socket
  | F_syschk C_io_uring_enter _ => p = M_enter_call \/ p = M_enter_wait
  | F_syschk C_read_uffd _ => h = H_read
  | F_syschk C_uffdio_copy _ => h = H_copy
  | F_errx msg =>
      (msg = "pthread_create"%string /\ p = M_pthread_create) \/
      (msg = "uffd read"%string /\ h = H_read) \/
      (msg = "expected cq_tail==1"%string /\ p = M_check_cq_tail /\ cqtl <> 1)
  end.

Definition read1_ok (e : event) : Prop :=
  match e with
  | EvConsumerRead1 op => op = IORING_OP_RECVMSG
  | _ => True
  end.

(** A posted completion carries the recorded [user_data], the result now
    in the completion entry, and the opcode the consumer acted on. *)
Definition complete_ok (res : Z) (swapped : bool) (e : event) : Prop :=
  match e with
  | EvComplete op ud r =>
      ud = 0 /\ r = res /\
      op = if swapped then IORING_OP_SENDMSG else IORING_OP_RECVMSG
  | _ => True
  end.

Definition is_main_line (l : line) : bool :=
  match l with L_got_message => false | _ => true end.

(** The lines printed by [main], in order. *)
Definition main_lines (o : list line) : list line := filter is_main_line o.

(** How often the handler's line was printed. *)
Definition got_lines (o : list line) : nat :=
  List.length (filter (fun l => negb (is_main_line l)) o).

(** The line of lines 160-164. *)
Definition result_line (res : Z) : line :=
  if res <? 0 then L_result_err res (wrap_int (- res)) else L_result res.

(** What [main] has printed when it stands at [p]. *)
Definition report (p : mpc) (subm cqtl res : Z) : list line :=
  if (main_rank p <=? 18)%nat then []
  else if (main_rank p <=? 20)%nat then [L_submitted subm]
  else if (main_rank p <=? 23)%nat then [L_submitted subm; L_cq_tail cqtl]
  else [L_submitted subm; L_cq_tail cqtl; result_line res].

Definition hpc_printed (h : hpc) : bool :=
  match h with H_mutate | H_vec | H_copy | H_done => true | _ => false end.

Record Inv2 (s : state) : Prop := mk_Inv2 {
  j_int_uring_fd : int_range (uring_fd (mainl s));
  j_int_uffd : int_range (uffd (glob s));
  j_int_sock : int_range (sock (mainl s));
  j_int_subm : int_range (submitted (mainl s));
  j_int_cqtl : int_range (cq_tail_l (mainl s));
  j_int_res : int_range (cqe_res (cqe0 (ring s)));
  j_stop : match failed (obs s) with
           | Some fl => stopped_at fl (main_pc (mainl s)) (handler_pc (hand s))
                                   (cq_tail_l (mainl s))
           | None => True
           end;
  j_cqtl01 : (20 <=? main_rank (main_pc (mainl s)))%nat = true ->
             cq_tail_l (mainl s) = 0 \/ cq_tail_l (mainl s) = 1;
  j_kop : match kstate (kern s) with
          | K_classified op | K_blocked op | K_resumed op => op = IORING_OP_RECVMSG
          | _ => True
          end;
  j_read1 : Forall read1_ok (log (obs s));
  j_comp : Forall (complete_ok (cqe_res (cqe0 (ring s))) (hpc_done (handler_pc (hand s))))
                  (log (obs s));
  j_out : main_lines (out (obs s)) =
          report (main_pc (mainl s)) (submitted (mainl s)) (cq_tail_l (mainl s))
                 (cqe_res (cqe0 (ring s)));
  j_got : got_lines (out (obs s)) = if hpc_printed (handler_pc (hand s)) then 1%nat else 0%nat
}.

Lemma main_lines_snoc o l :
  main_lines (o ++ [l]) = main_lines o ++ (if is_main_line l then [l] else []).
Proof. unfold main_lines. rewrite filter_app. simpl. destruct (is_main_line l); reflexivity. Qed.

Lemma got_lines_snoc o l :
  got_lines (o ++ [l]) = (got_lines o + if is_main_line l then 0 else 1)%nat.
Proof.
  unfold got_lines. rewrite filter_app, length_app. simpl.
  destruct (is_main_line l); reflexivity.
Qed.

Lemma complete_ok_any res b res' b' l :
  count KComplete l = O -> Forall (complete_ok res b) l -> Forall (complete_ok res' b') l.
Proof.
  induction l as [|e t IH]; intros Hc HF; [constructor|].
  inversion HF; subst. unfold count in Hc. simpl in Hc.
  destruct e; simpl in Hc; try discriminate Hc; constructor; try exact I; apply IH; assumption.
Qed.

Lemma wrap_int_range z : int_range (wrap_int z).
Proof.
  unfold int_range, wrap_int.
  pose proof (Z.mod_pos_bound (z + 2 ^ 31) (2 ^ 32) ltac:(lia)). lia.
Qed.

Lemma inv2_init f : Inv2 (init f).
Proof.
  constructor; simpl; try (unfold int_range; lia); try discriminate; try constructor;
    try reflexivity.
Qed.

Opaque vec_bytes wrap_int count precedes never_before copy_len page_len pad_len.
Opaque main_lines got_lines.

Ltac break_step2 :=
  repeat match goal with
    | |- Inv2 (if ?b then _ else _) => destruct b eqn:?
    | |- Inv2 (match ?x with _ => _ end) => destruct x eqn:?
    end.

Ltac forall_fin :=
  repeat (apply Forall_snoc;
          [ | simpl; first [ exact I | assumption | reflexivity
                           | repeat split; first [ reflexivity | assumption ] ] ]);
  first [ assumption
        | eapply complete_ok_any; [ | eassumption ]; use_counts; reflexivity ].

Ltac out_fin :=
  match goal with
  | H : main_lines ?o = _ |- context [main_lines ?o] =>
      rewrite H; unfold result_line; simpl;
      first [ reflexivity
            | match goal with
              | |- context [?x <? 0] =>
                  destruct (x <? 0) eqn:?; bool_hyps; first [ reflexivity | lia ]
              end ]
  end.

Ltac solve_inv2 :=
  constructor; norm; cbv [report main_rank Nat.leb] in *;
  rewrite ?main_lines_snoc, ?got_lines_snoc; simpl;
  try assumption; try discriminate; try exact I; try reflexivity;
  try apply wrap_int_range;
  try forall_fin;
  try out_fin;
  try (rewrite ?app_nil_r, ?Nat.add_0_r; assumption);
  try solve [ simpl; auto 6 ];
  try fin.

Lemma inv2_main_step s r e :
  Inv s -> Inv2 s -> exit_status (obs s) = None -> Inv2 (main_step r e s).
Proof.
  intros I J Hex.
  destruct s as [f [sqe arr sqt cqt cqe] [ufd iova riov] [pc ufd' sk miov subm cqtl]
                   [hp vc] [kst rng trp fp ent rdy kud] [o ex fl lg]].
  destruct I as [H_hoff H_range H_riov H_miov H_sqe H_arr H_sqt H_ent H_kmain H_cqt
    H_cqe_ud H_kud H_cqtl H_cqtl1 H_res H_compat H_vec H_c_submit H_c_read1 H_c_fault
    H_c_obs H_c_mut H_c_pop H_c_res H_c_comp H_c_load H_o_submit H_o_read1 H_o_fault
    H_o_obs H_o_mut H_o_pop H_o_comp_mut H_o_comp_pop H_pop H_exit].
  destruct J as [J_int_uring_fd J_int_uffd J_int_sock J_int_subm J_int_cqtl J_int_res J_stop J_cqtl01 J_kop J_read1 J_comp J_out J_got].
  simpl in *. subst ex. destruct H_exit as [Hfl Hnd]. subst fl.
  unfold main_step; simpl.
  destruct pc; unfold SYSCHK; simpl; break_step2; norm.
  all: try (exfalso; apply Hnd; reflexivity).
  all: solve_inv2.
  intros _. subst cqt. destruct (k_is_done kst);
    [right; exact wrap_int_1 | left; exact wrap_int_0].
Qed.

Ltac open_state s I J :=
  destruct s as [f [sqe arr sqt cqt cqe] [ufd iova riov] [pc ufd' sk miov subm cqtl]
                   [hp vc] [kst rng trp fp ent rdy kud] [o ex fl lg]];
  destruct I as [H_hoff H_range H_riov H_miov H_sqe H_arr H_sqt H_ent H_kmain H_cqt
    H_cqe_ud H_kud H_cqtl H_cqtl1 H_res H_compat H_vec H_c_submit H_c_read1 H_c_fault
    H_c_obs H_c_mut H_c_pop H_c_res H_c_comp H_c_load H_o_submit H_o_read1 H_o_fault
    H_o_obs H_o_mut H_o_pop H_o_comp_mut H_o_comp_pop H_pop H_exit];
  destruct J as [J_int_uring_fd J_int_uffd J_int_sock J_int_subm J_int_cqtl J_int_res J_stop J_cqtl01 J_kop J_read1 J_comp J_out J_got];
  simpl in *; subst ex; destruct H_exit as [Hfl Hnd]; subst fl.

Lemma inv2_handler_step s r e :
  Inv s -> Inv2 s -> exit_status (obs s) = None -> Inv2 (handler_step r e s).
Proof.
  intros I J0 Hex. pose proof J0 as J. open_state s I J.
  unfold handler_step; simpl.
  destruct hp; try exact J0; clear J0.
  - (* read *)
    break_step2; try (constructor; simpl; assumption).
    all: destruct kst; prune.
    all: destruct pc; prune.
    all: solve_inv2.
  - destruct kst; prune. all: destruct pc; prune. all: solve_inv2.
  - destruct kst; prune. all: destruct pc; prune. all: solve_inv2.
  - destruct kst; prune. all: destruct pc; prune. all: solve_inv2.
  - destruct kst; prune. all: destruct pc; prune.
    all: unfold populate, uffdio_copy; simpl; subst rng;
      rewrite Z.eqb_refl, copy_len_page_len; simpl.
    all: subst trp vc.
    all: destruct (r =? -1) eqn:Hr; simpl; rewrite ?firstn_vec_bytes.
    all: solve_inv2.
Qed.

Lemma inv2_kernel_step s k :
  Inv s -> Inv2 s -> exit_status (obs s) = None -> Inv2 (kernel_step k s).
Proof.
  intros I J0 Hex. pose proof J0 as J. open_state s I J.
  unfold kernel_step, post_completion; simpl.
  destruct k; destruct kst; try exact J0; clear J0.
  all: destruct hp; prune.
  all: destruct pc; prune.
  all: subst; rewrite ?in_range_base; simpl;
    rewrite ?Z.eqb_refl, ?in_range_base, ?cq_inc_0; simpl.
  all: break_step2.
  all: solve_inv2.
Qed.

Transparent vec_bytes wrap_int count precedes never_before copy_len page_len pad_len.
Transparent main_lines got_lines.

Lemma inv2_step s a : Inv s -> Inv2 s -> Inv2 (step s a).
Proof.
  intros I J. unfold step. destruct (exit_status (obs s)) eqn:Hex; [exact J|].
  destruct a as [r e | r e | k].
  - apply inv2_main_step; assumption.
  - apply inv2_handler_step; assumption.
  - apply inv2_kernel_step; assumption.
Qed.

Lemma inv2_run f sched : Inv2 (run f sched).
Proof.
  unfold run.
  assert (H : forall s, Inv s -> Inv2 s -> Inv2 (run_from s sched)).
  { induction sched as [|a t IH]; intros s I J; simpl; [exact J|].
    apply IH; [apply inv_step | apply inv2_step]; assumption. }
  apply H; [apply inv_init | apply inv2_init].
Qed.

(** ** C1: the overwrite sits between the fault and the population *)



(** ** C2: the waits take no timeout *)

(** A round in which both threads get the processor, each with a
    successful reply on offer for the call it is in, and the kernel delivers
    neither a fault nor a completion. *)
Definition quiet_round : list action := [A_handler sizeof_uffd_msg 0; A_main 1 0].

Fixpoint quiet (n : nat) : list action :=
  match n with
  | O => []
  | S n' => quiet_round ++ quiet n'
  end.

(** Both threads are inside their blocking call and the kernel has
    nothing for either. *)
Definition both_waiting (s : state) : Prop :=
  exit_status (obs s) = None /\
  handler_pc (hand s) = H_read /\ fault_pending (kern s) = false /\
  main_pc (mainl s) = M_enter_wait /\ enter_ready (kern s) = false.

(** What a bound on the waits would give at the least: some number of
    quiet rounds after which, from wherever the run stands, the process has
    terminated. *)
Definition bounded_wait : Prop :=
  exists bound : nat, forall f sched,
    exit_status (obs (run f (sched ++ quiet bound))) <> None.

(** The state after the submission has been taken by the consumer, which
    then does nothing more. *)
Definition sched_stalled : list action := sched_setup ++ [A_kernel K_accept].

Lemma handler_blocked s r e :
  handler_pc (hand s) = H_read -> fault_pending (kern s) = false -> r <> -1 ->
  handler_step r e s = s.
Proof.
  intros Hpc Hfp Hr. unfold handler_step. rewrite Hpc, Hfp.
  apply Z.eqb_neq in Hr. rewrite Hr. reflexivity.
Qed.

Lemma main_blocked s r e :
  main_pc (mainl s) = M_enter_wait -> enter_ready (kern s) = false -> r <> -1 ->
  main_step r e s = s.
Proof.
  intros Hpc Hrd Hr. unfold main_step. rewrite Hpc, Hrd.
  apply Z.eqb_neq in Hr. rewrite Hr. reflexivity.
Qed.

Lemma quiet_stays s n : both_waiting s -> run_from s (quiet n) = s.
Proof.
  intros (Hex & Hh & Hfp & Hm & Hrd). induction n as [|n IH]; [reflexivity|].
  change (quiet (S n)) with (quiet_round ++ quiet n). rewrite run_from_app.
  replace (run_from s quiet_round) with s; [exact IH|].
  unfold quiet_round, run_from. cbn [fold_left].
  assert (H1 : step s (A_handler sizeof_uffd_msg 0) = s).
  { unfold step. rewrite Hex. apply handler_blocked; [assumption..|unfold sizeof_uffd_msg; lia]. }
  rewrite H1. unfold step. rewrite Hex. symmetry. apply main_blocked; [assumption..|lia].
Qed.

Lemma run_app f l1 l2 : run f (l1 ++ l2) = run_from (run f l1) l2.
Proof. unfold run. apply run_from_app. Qed.

Lemma stalled_waiting : both_waiting (run frame0 sched_stalled).
Proof. vm_compute. repeat split. Qed.


(** C2, as stated, fails: with the consumer stalled after taking the
    submission, no number of rounds ends the process. *)
Lemma C2_no_bound_on_waits : ~ bounded_wait.
Proof.
  intros [bound H]. apply (H frame0 sched_stalled).
  rewrite run_app, (quiet_stays _ bound stalled_waiting).
  exact (proj1 stalled_waiting).
Qed.

(** C2, amended.  Neither wait takes a timeout.  [read(uffd)] returns only
    when a fault message is queued or the call fails; [io_uring_enter] with
    [min_complete = 1] returns only when the kernel lets it or the call
    fails.  While the kernel does neither, scheduling a blocked thread
    changes nothing, for any number of rounds. *)
Theorem C2_waits_are_unbounded (s : state) :
  exit_status (obs s) = None ->
  (handler_pc (hand s) = H_read -> fault_pending (kern s) = false ->
   forall r e, r <> -1 -> step s (A_handler r e) = s) /\
  (main_pc (mainl s) = M_enter_wait -> enter_ready (kern s) = false ->
   forall r e, r <> -1 -> step s (A_main r e) = s) /\
  (both_waiting s -> forall n, run_from s (quiet n) = s).
Proof.
  intros Hex. repeat split.
  - intros Hh Hfp r e Hr. unfold step. rewrite Hex. apply handler_blocked; assumption.
  - intros Hm Hrd r e Hr. unfold step. rewrite Hex. apply main_blocked; assumption.
  - intros W n. apply quiet_stays. exact W.
Qed.


Lemma C2_witness :
  exit_status (obs (run frame0 sched_stalled)) = None /\
  run_from (run frame0 sched_stalled) (quiet 1000) = run frame0 sched_stalled.
Proof.
  assert (Hex : exit_status (obs (run frame0 sched_stalled)) = None)
    by (vm_compute; reflexivity).
  split; [exact Hex|].
  exact (proj2 (proj2 (C2_waits_are_unbounded (run frame0 sched_stalled) Hex))
           stalled_waiting 1000%nat).
Defined.

(** ** C3: the page is populated once *)

(** A kernel in which the page at [0x7f0000004000] is registered and
    still missing. *)
Definition kernel_armed : kernel :=
  mk_kernel (K_blocked IORING_OP_RECVMSG) (Some (0x7f0000004000, page_len)) None
            false true false 0.

Lemma populate_fresh dst src r e k :
  uffd_range k = Some (dst, page_len) -> trap k = None -> r <> -1 ->
  List.length src = Z.to_nat page_len ->
  populate dst src r e k = (None, set_trap (Some src) k).
Proof.
  intros Hrg Htr Hr Hlen. unfold populate, uffdio_copy.
  rewrite Hrg, Htr, Z.eqb_refl, copy_len_page_len. simpl andb. cbv iota.
  apply Z.eqb_neq in Hr. rewrite Hr.
  rewrite firstn_all2 by (rewrite Hlen; apply Nat.le_refl). reflexivity.
Qed.

Lemma populate_present dst src r e k b :
  uffd_range k = Some (dst, page_len) -> trap k = Some b ->
  populate dst src r e k = (Some (F_syschk C_uffdio_copy EEXIST), k).
Proof.
  intros Hrg Htr. unfold populate, uffdio_copy.
  rewrite Hrg, Htr, Z.eqb_refl, copy_len_page_len. reflexivity.
Qed.

(** Once present, the page is never written again: [UFFDIO_COPY] is the
    only writer and it refuses a present page. *)
Lemma trap_stable s a b :
  trap (kern s) = Some b -> trap (kern (step s a)) = Some b.
Proof.
  intros Hb. unfold step. destruct (exit_status (obs s)); [exact Hb|].
  destruct a as [r e|r e|k].
  - unfold main_step, SYSCHK.
    destruct (main_pc (mainl s)); break_ifs; simpl; congruence.
  - unfold handler_step, populate, uffdio_copy. rewrite Hb.
    destruct (handler_pc (hand s)); try (break_ifs; simpl; congruence).
    destruct (uffd_range (kern s)) as [[st rl]|]; break_ifs; simpl; congruence.
  - unfold kernel_step, post_completion.
    destruct k, (kstate (kern s)); break_ifs; simpl; congruence.
Qed.

(** C3.  A first [UFFDIO_COPY] on the registered, still missing page
    succeeds and leaves the page holding exactly the bytes supplied; any
    further one on that page, whatever it supplies, fails with [EEXIST]
    (which [SYSCHK] turns into [err(1, ...)]) and leaves the page as it
    was.  In every run the handler issues [UFFDIO_COPY] at most once, the
    page, once present, holds the bytes of that one call, and no later step
    of any thread changes it. *)
Theorem C3_populate_rejects_second :
  (forall dst src r e k,
     uffd_range k = Some (dst, page_len) -> trap k = None -> r <> -1 ->
     List.length src = Z.to_nat page_len ->
     exists k1,
       populate dst src r e k = (None, k1) /\ trap k1 = Some src /\
       forall src' r' e',
         populate dst src' r' e' k1 = (Some (F_syschk C_uffdio_copy EEXIST), k1)) /\
  (forall f sched,
     (count KPopulate (log (obs (run f sched))) <= 1)%nat /\
     forall b, trap (kern (run f sched)) = Some b ->
       In (EvPopulate (iov (glob (run f sched))) copy_len b) (log (obs (run f sched))) /\
       forall a, trap (kern (step (run f sched) a)) = Some b).
Proof.
  split.
  - intros dst src r e k Hrg Htr Hr Hlen. exists (set_trap (Some src) k).
    split; [apply populate_fresh; assumption|]. split; [reflexivity|].
    intros src' r' e'. apply populate_present with (b := src); [exact Hrg | reflexivity].
  - intros f sched. pose proof (inv_run f sched) as I. split.
    + rewrite (i_c_pop _ I). unfold populate_count.
      destruct (handler_pc _); try lia. destruct (copy_failed _); lia.
    + intros b Hb. split.
      * pose proof (i_compat _ I) as Hc. pose proof (i_c_pop _ I) as Hn.
        pose proof (i_vec _ I) as Hv. pose proof (i_pop _ I) as HF.
        unfold compat in Hc. rewrite Hb in Hc.
        destruct (handler_pc (hand (run f sched))) eqn:Hh;
          try (destruct Hc as [Hc _]; discriminate Hc).
        destruct Hc as [Hc _]. inversion Hc as [Hbv]. simpl in Hv, Hn.
        assert (Hhas : has KPopulate (log (obs (run f sched))) = true)
          by (apply count_pos_has; lia).
        unfold has in Hhas. apply existsb_exists in Hhas.
        destruct Hhas as [ev [Hin Hk]]. rewrite Forall_forall in HF.
        specialize (HF ev Hin). destruct ev; try discriminate Hk.
        simpl in HF. destruct HF as [-> [-> ->]].
        rewrite Hv. exact Hin.
      * intros a. apply trap_stable. exact Hb.
Qed.

Lemma C3_witness :
  exists k1,
    populate 0x7f0000004000 (vec_bytes (mk_iovec 0x7ffc00001100 32)) 0 0 kernel_armed
      = (None, k1) /\
    trap k1 = Some (vec_bytes (mk_iovec 0x7ffc00001100 32)) /\
    populate 0x7f0000004000 (vec_bytes (mk_iovec 0x7ffc00001100 32)) 0 0 k1
      = (Some (F_syschk C_uffdio_copy EEXIST), k1).
Proof.
  destruct (proj1 C3_populate_rejects_second 0x7f0000004000
              (vec_bytes (mk_iovec 0x7ffc00001100 32)) 0 0 kernel_armed
              eq_refl eq_refl ltac:(discriminate) (vec_bytes_length _))
    as [k1 [H1 [H2 H3]]].
  exists k1. split; [exact H1|]. split; [exact H2|]. apply H3.
Defined.

(** ** C4: the opcode overwrite is unconditional *)

(** C4, as stated, fails.  In the final state of a run whose consumer
    completed without faulting, the completion of the only submission is
    recorded ([cq_tail = 1], matching [user_data]) and the opcode is still
    [IORING_OP_RECVMSG]; line 69 applied to that ring stores
    [IORING_OP_SENDMSG] all the same. *)
Lemma C4_mutate_after_completion_writes :
  let r := ring (run frame0 (sched_no_fault (-22))) in
  cq_tail r = 1 /\ cqe_user_data (cqe0 r) = user_data (sqe0 r) /\
  opcode (sqe0 r) = IORING_OP_RECVMSG /\
  opcode (sqe0 (mutate_submitted r)) = IORING_OP_SENDMSG /\
  mutate_submitted r <> r.
Proof.
  vm_compute. repeat split. discriminate.
Qed.

(** C4, amended.  The overwrite is a plain store: whatever the completion
    ring holds, the opcode afterwards is [IORING_OP_SENDMSG] and the
    completion ring is not consulted or changed.  What keeps it ahead of the
    completion is the blocked consumer, not a check: in every run the
    overwrite has a smaller sequence number than the completion. *)
Theorem C4_mutate_unconditional :
  (forall r, opcode (sqe0 (mutate_submitted r)) = IORING_OP_SENDMSG /\
             cq_tail (mutate_submitted r) = cq_tail r /\
             cqe0 (mutate_submitted r) = cqe0 r) /\
  (forall f sched m c,
     seq_of KMutate (log (obs (run f sched))) = Some m ->
     seq_of KComplete (log (obs (run f sched))) = Some c -> (m < c)%nat).
Proof.
  split.
  - intros r. repeat split.
  - intros f sched m c Hm Hc. pose proof (inv_run f sched) as I.
    pose proof (never_before_seq _ _ _ _ _ (i_o_comp_mut _ I) Hc Hm) as Hle.
    destruct (Nat.eq_dec m c) as [->|]; [|lia].
    pose proof (seq_of_kind_inj _ _ _ _ Hm Hc). discriminate.
Qed.

Lemma C4_witness :
  seq_of KMutate (log (obs (run frame0 (sched_race 32)))) = Some 4%nat /\
  seq_of KComplete (log (obs (run frame0 (sched_race 32)))) = Some 7%nat /\
  (4 < 7)%nat.
Proof.
  assert (Hm : seq_of KMutate (log (obs (run frame0 (sched_race 32)))) = Some 4%nat)
    by (vm_compute; reflexivity).
  assert (Hc : seq_of KComplete (log (obs (run frame0 (sched_race 32)))) = Some 7%nat)
    by (vm_compute; reflexivity).
  split; [exact Hm|]. split; [exact Hc|].
  exact (proj2 C4_mutate_unconditional frame0 (sched_race 32) 4%nat 7%nat Hm Hc).
Defined.

(** ** C5: the completion record *)













(** ** C6: the submission has no capacity check *)

Definition fresh_ring : ring_mem := mk_ring zero_sqe 0 0 0 zero_cqe.

(** C6, as stated, fails.  On a ring set up with 10 entries and never
    consumed, ten submissions are followed by an eleventh that is taken
    like the others: the tail moves to 11 and slot 0, which held the tenth
    descriptor, now holds the eleventh. *)
Lemma C6_eleventh_submit_accepted :
  let d := benign_sqe 5 0x7ffc00001000 in
  let d' := benign_sqe 6 0x7ffc00002000 in
  let r10 := Nat.iter 10 (submit d) fresh_ring in
  sq_tail r10 = setup_entries /\ cq_tail r10 = 0 /\ sqe0 r10 = d /\
  sq_tail (submit d' r10) = setup_entries + 1 /\ sqe0 (submit d' r10) = d' /\ d' <> d.
Proof.
  vm_compute. repeat split. discriminate.
Qed.

(** C6, amended.  The submission of lines 147-153 cannot fail and checks
    no capacity: from any ring it stores the descriptor in [sqes[0]], the
    index 0 in [array[0]], adds one to the tail (as a C [int]) and leaves the
    completion ring alone.  [main] performs it at most once per run. *)
Theorem C6_submit_unchecked :
  (forall d r,
     submit d r = mk_ring d submit_slot (wrap_int (sq_tail r + 1)) (cq_tail r) (cqe0 r)) /\
  (forall d r, - 2 ^ 31 <= sq_tail r < 2 ^ 31 - 1 ->
     sq_tail (submit d r) = sq_tail r + 1) /\
  (forall f sched, (count KSubmit (log (obs (run f sched))) <= 1)%nat).
Proof.
  split; [|split].
  - intros d r. reflexivity.
  - intros d r H. unfold submit, inc_tail, write_array, write_sqe. simpl.
    apply wrap_int_small. lia.
  - intros f sched. rewrite (i_c_submit _ (inv_run f sched)).
    destruct (_ <=? _)%nat; lia.
Qed.

Lemma C6_witness :
  sq_tail (submit (benign_sqe 5 0x7ffc00001000) fresh_ring) = sq_tail fresh_ring + 1.
Proof.
  apply (proj1 (proj2 C6_submit_unchecked) (benign_sqe 5 0x7ffc00001000) fresh_ring).
  simpl. lia.
Defined.

(** ** C7: the ring cursors *)

(** Does this scheduling decision execute [tail++] of line 153? *)
Definition advances_sq (s : state) (a : action) : bool :=
  match exit_status (obs s), a, main_pc (mainl s) with
  | None, A_main _ _, M_inc_tail => true
  | _, _, _ => false
  end.

(** Does this scheduling decision make the consumer post its completion? *)
Definition completes (s : state) (a : action) : bool :=
  match exit_status (obs s), a, kstate (kern s) with
  | None, A_kernel (K_skip _), K_classified _ => true
  | None, A_kernel (K_complete _), K_resumed _ => true
  | _, _, _ => false
  end.

Lemma sq_tail_step s a :
  sq_tail (ring (step s a)) =
  if advances_sq s a then wrap_int (sq_tail (ring s) + 1) else sq_tail (ring s).
Proof.
  unfold step, advances_sq. destruct (exit_status (obs s)); [reflexivity|].
  destruct a as [r e|r e|k].
  - unfold main_step, SYSCHK. destruct (main_pc (mainl s)); break_ifs; reflexivity.
  - unfold handler_step.
    destruct (handler_pc (hand s)); try (break_ifs; reflexivity).
    destruct (populate _ _ _ _ _) as [[fl|] k']; reflexivity.
  - unfold kernel_step, post_completion.
    destruct k, (kstate (kern s)); break_ifs; reflexivity.
Qed.

Lemma sq_array0_step s a :
  sq_array0 (ring (step s a)) =
  match exit_status (obs s), a, main_pc (mainl s) with
  | None, A_main _ _, M_write_array => submit_slot
  | _, _, _ => sq_array0 (ring s)
  end.
Proof.
  unfold step. destruct (exit_status (obs s)); [reflexivity|].
  destruct a as [r e|r e|k].
  - unfold main_step, SYSCHK. destruct (main_pc (mainl s)); break_ifs; reflexivity.
  - unfold handler_step.
    destruct (handler_pc (hand s)); try (break_ifs; reflexivity).
    destruct (populate _ _ _ _ _) as [[fl|] k']; reflexivity.
  - unfold kernel_step, post_completion.
    destruct k, (kstate (kern s)); break_ifs; reflexivity.
Qed.

Lemma cq_tail_step s a :
  cq_tail (ring (step s a)) =
  if completes s a then (cq_tail (ring s) + 1) mod 2 ^ 32 else cq_tail (ring s).
Proof.
  unfold step, completes. destruct (exit_status (obs s)); [reflexivity|].
  destruct a as [r e|r e|k].
  - unfold main_step, SYSCHK. destruct (main_pc (mainl s)); break_ifs; reflexivity.
  - unfold handler_step.
    destruct (handler_pc (hand s)); try (break_ifs; reflexivity).
    destruct (populate _ _ _ _ _) as [[fl|] k']; reflexivity.
  - unfold kernel_step, post_completion.
    destruct k, (kstate (kern s)); break_ifs; reflexivity.
Qed.

(** C7, as stated, fails on the indexing.  The program never indexes by
    a cursor: after one submission the tail is 1, which is 1 modulo the
    10 entries asked for and modulo the 16 the kernel rounds them to, yet
    a second submission is written where the first was, in [sqes[0]] with
    [array[0] = 0].  And [tail++] is an increment of an [int], with no
    wrap at any capacity: at [INT_MAX] it yields a smaller value. *)
Lemma C7_slot_is_not_tail_modulo :
  let d := benign_sqe 5 0x7ffc00001000 in
  let d' := benign_sqe 6 0x7ffc00002000 in
  let r1 := submit d fresh_ring in
  sq_tail r1 = 1 /\ sq_tail r1 mod setup_entries = 1 /\ sq_tail r1 mod 16 = 1 /\
  sq_array0 (submit d' r1) = 0 /\ sqe0 r1 = d /\ sqe0 (submit d' r1) = d' /\ d' <> d /\
  sq_tail (submit d' r1) = 2 /\
  sq_tail (inc_tail (mk_ring zero_sqe 0 (2 ^ 31 - 1) 0 zero_cqe)) = - 2 ^ 31.
Proof.
  vm_compute. repeat split. discriminate.
Qed.

(** C7, amended.  Along every run, at every step: neither tail ever
    decreases; the submission tail changes only when [main] executes
    [tail++], by exactly one, with [array[0]] holding the constant 0; the
    completion tail changes only when the consumer posts its completion, by
    exactly one; no statement of [main] or of the fault handler changes the
    completion tail, no step of the kernel changes the submission tail.
    The slot of a submission is the constant 0 whatever the tail is, and
    the new tail is the old one plus one as an [int]. *)
Theorem C7_cursors_single_writer_constant_slot (f : frame) (sched : list action) (a : action) :
  let s := run f sched in
  let s' := step s a in
  sq_tail (ring s) <= sq_tail (ring s') /\
  cq_tail (ring s) <= cq_tail (ring s') /\
  (sq_tail (ring s') <> sq_tail (ring s) ->
     (exists r e, a = A_main r e) /\ main_pc (mainl s) = M_inc_tail /\
     sq_tail (ring s') = sq_tail (ring s) + 1 /\
     sq_array0 (ring s') = submit_slot) /\
  (cq_tail (ring s') <> cq_tail (ring s) ->
     (exists k, a = A_kernel k) /\ cq_tail (ring s') = cq_tail (ring s) + 1) /\
  (forall d r, sq_array0 (submit d r) = 0 /\ sqe0 (submit d r) = d /\
               sq_tail (submit d r) = wrap_int (sq_tail r + 1)).
Proof.
  intros s s'. subst s'. pose proof (inv_run f sched) as I. fold s in I.
  rewrite sq_tail_step, cq_tail_step, sq_array0_step.
  assert (Hsq : advances_sq s a = true ->
                (exists r e, a = A_main r e) /\ main_pc (mainl s) = M_inc_tail /\
                exit_status (obs s) = None /\ sq_tail (ring s) = 0 /\
                sq_array0 (ring s) = 0).
  { unfold advances_sq. intros H.
    destruct (exit_status (obs s)); [discriminate|].
    destruct a as [r e|r e|k]; try discriminate.
    destruct (main_pc (mainl s)) eqn:Hpc; try discriminate.
    pose proof (i_sqt _ I) as Ht. rewrite Hpc in Ht.
    repeat split; eauto. apply (i_arr _ I). }
  assert (Hcq : completes s a = true ->
                (exists k, a = A_kernel k) /\ cq_tail (ring s) = 0).
  { unfold completes. intros H. pose proof (i_cqt _ I) as Ht.
    destruct (exit_status (obs s)); [discriminate|].
    destruct a as [r e|r e|k]; try discriminate.
    destruct k; try discriminate;
      destruct (kstate (kern s)); try discriminate; split; eauto. }
  assert (Hop : forall d r, sq_array0 (submit d r) = 0 /\ sqe0 (submit d r) = d /\
                            sq_tail (submit d r) = wrap_int (sq_tail r + 1)).
  { intros d r. repeat split. }
  destruct (advances_sq s a) eqn:Ea; destruct (completes s a) eqn:Ec.
  all: try (destruct (Hsq eq_refl) as (Hm & Hpc & Hex & Ht & Harr); rewrite Ht, Hex, Hpc).
  all: try (destruct (Hcq eq_refl) as (Hk & Hc); rewrite Hc).
  all: try (destruct Hm as (r & e & ->)).
  all: try (destruct Hk as (k & Hk); try discriminate Hk; subst a).
  all: rewrite ?wrap_int_1, ?cq_inc_0.
  all: split; [lia|]; split; [lia|]; split; [|split; [|exact Hop]].
  all: try (intros H; exfalso; apply H; reflexivity).
  all: intros _; repeat split; try lia; try congruence; eauto.
Qed.

Lemma C7_witness :
  sq_tail (ring (step (run frame0 (firstn 15 sched_setup)) (A_main 0 0))) =
  sq_tail (ring (run frame0 (firstn 15 sched_setup))) + 1 /\
  sq_array0 (ring (step (run frame0 (firstn 15 sched_setup)) (A_main 0 0))) = submit_slot.
Proof.
  assert (H : sq_tail (ring (step (run frame0 (firstn 15 sched_setup)) (A_main 0 0))) <>
              sq_tail (ring (run frame0 (firstn 15 sched_setup))))
    by (vm_compute; discriminate).
  destruct (proj1 (proj2 (proj2
              (C7_cursors_single_writer_constant_slot frame0 (firstn 15 sched_setup)
                 (A_main 0 0))))
              H) as (_ & _ & H1 & H2).
  split; [exact H1 | exact H2].
Defined.

(** ** C8: the exit status *)

(** Does this scheduling decision answer a checked call with its failure
    value?  -1 for a call under [SYSCHK] (the set-up calls, the mmaps, the
    userfaultfd registration, [socket], [io_uring_enter], the [read] on the
    userfaultfd, [UFFDIO_COPY]), non-zero for [pthread_create], a length
    other than [sizeof(msg)] for the userfaultfd message. *)
Definition call_fails (s : state) (a : action) : bool :=
  match a with
  | A_main r e =>
      match main_pc (mainl s) with
      | M_io_uring_setup | M_mmap_sq_ring | M_mmap_cq_ring | M_mmap_sqes
      | M_mmap_iov | M_userfaultfd | M_uffdio_api | M_uffdio_register
      | M_socket | M_enter_call | M_enter_wait => r =? -1
      | M_pthread_create => negb (r =? 0)
      | _ => false
      end
  | A_handler r e =>
      match handler_pc (hand s) with
      | H_read =>
          (r =? -1) || (fault_pending (kern s) && negb (wrap_int r =? sizeof_uffd_msg))
      | H_copy =>
          fst (fst (uffdio_copy (iov (glob s)) copy_len (vec (hand s)) r e (kern s))) =? -1
      | _ => false
      end
  | A_kernel _ => false
  end.

(** Does this scheduling decision take [main] through the check of line
    157 with a completion tail other than 1?  No call is involved. *)
Definition completion_missing (s : state) (a : action) : bool :=
  match a, main_pc (mainl s) with
  | A_main _ _, M_check_cq_tail => negb (cq_tail_l (mainl s) =? 1)
  | _, _ => false
  end.

(** Does this scheduling decision let [main] fall off its end? *)
Definition main_returns (s : state) (a : action) : bool :=
  match a, main_pc (mainl s) with
  | A_main _ _, M_return => true
  | _, _ => false
  end.

(** Why a process stops. *)
Inductive stop := Stop_call_failed | Stop_no_completion | Stop_returned.

Definition stops (s : state) (a : action) : option stop :=
  if call_fails s a then Some Stop_call_failed
  else if completion_missing s a then Some Stop_no_completion
  else if main_returns s a then Some Stop_returned
  else None.

(** The first reason to stop that a schedule meets, if any. *)
Fixpoint first_stop (s : state) (sched : list action) : option stop :=
  match sched with
  | [] => None
  | a :: t =>
      match stops s a with
      | Some k => Some k
      | None => first_stop (step s a) t
      end
  end.

(** No reply of the schedule is the failure value -1. *)
Definition no_reply_is_minus_one (sched : list action) : bool :=
  forallb (fun a => match a with
                    | A_main r _ | A_handler r _ => negb (r =? -1)
                    | A_kernel _ => true
                    end) sched.

(** [io_uring_enter] is woken while the consumer waits for the missing
    page: the fault handler has not run yet, nothing is completed. *)
Definition sched_woken : list action :=
  sched_setup ++ [A_kernel K_accept; A_kernel K_touch; A_kernel K_interrupt]
  ++ [A_main 1 0; A_main 0 0; A_main 0 0; A_main 0 0; A_main 0 0].

Definition no_completion : failure := F_errx "expected cq_tail==1".

(** What a stop leaves behind. *)
Definition stopped_as (k : option stop) (s : state) : Prop :=
  match k with
  | None => exit_status (obs s) = None /\ failed (obs s) = None
  | Some Stop_returned =>
      exit_status (obs s) = Some 0 /\ failed (obs s) = None
  | Some Stop_no_completion =>
      exit_status (obs s) = Some 1 /\ failed (obs s) = Some no_completion
  | Some Stop_call_failed =>
      exit_status (obs s) = Some 1 /\
      exists fl, failed (obs s) = Some fl /\ fl <> no_completion
  end.

Lemma step_stops s a :
  exit_status (obs s) = None -> failed (obs s) = None ->
  stopped_as (stops s a) (step s a).
Proof.
  intros Hex Hfl. unfold step, stops, call_fails, completion_missing, main_returns.
  rewrite Hex.
  destruct s as [f rg g [pc ? ? ? ? ?] [hp vc] k [o ex fl lg]].
  simpl in Hex, Hfl. subst ex fl.
  destruct a as [r e|r e|ka].
  - unfold main_step, SYSCHK. cbn [main_pc mainl]. destruct pc; break_conds; simpl;
      try (split; reflexivity);
      split; try reflexivity; eexists; split; try reflexivity; discriminate.
  - unfold handler_step, populate. cbn [handler_pc hand].
    destruct hp; simpl; try (split; reflexivity).
    + destruct (r =? -1); simpl;
        [split; [reflexivity|]; eexists; split; [reflexivity | discriminate]|].
      destruct (fault_pending k); simpl; [|split; reflexivity].
      destruct (wrap_int r =? sizeof_uffd_msg); simpl; [split; reflexivity|].
      split; [reflexivity|]. eexists. split; [reflexivity | discriminate].
    + destruct (uffdio_copy _ _ _ _ _ _) as [[ret err] k']. simpl.
      destruct (ret =? -1); simpl; [|split; reflexivity].
      split; [reflexivity|]. eexists. split; [reflexivity | discriminate].
  - unfold kernel_step, post_completion. cbn [kern].
    destruct ka, (kstate k); break_ifs; simpl; split; reflexivity.
Qed.

Lemma run_from_stops sched :
  forall s, exit_status (obs s) = None -> failed (obs s) = None ->
  stopped_as (first_stop s sched) (run_from s sched).
Proof.
  induction sched as [|a t IH]; intros s Hex Hfl.
  - simpl. split; assumption.
  - cbn [first_stop]. change (run_from s (a :: t)) with (run_from (step s a) t).
    pose proof (step_stops s a Hex Hfl) as Hs.
    destruct (stops s a) as [k|].
    + assert (Hx : exists c, exit_status (obs (step s a)) = Some c)
        by (destruct k; simpl in Hs; destruct Hs as [Hs _]; eauto).
      destruct Hx as [c Hc]. rewrite (run_from_exited _ t _ Hc). exact Hs.
    + destruct Hs as [H1 H2]. apply IH; assumption.
Qed.

(** C8, as stated, fails.  In this run every call succeeds and no reply
    is -1, yet the exit status is 1: [io_uring_enter] came back before a
    completion was posted, and [main]'s own check of [cq_tail] ended the
    process. *)
Lemma C8_exit_one_without_failed_call :
  exit_status (obs (run frame0 sched_woken)) = Some 1 /\
  failed (obs (run frame0 sched_woken)) = Some (F_errx "expected cq_tail==1") /\
  first_stop (init frame0) sched_woken = Some Stop_no_completion /\
  no_reply_is_minus_one sched_woken = true.
Proof. vm_compute. repeat split. Qed.

(** C8, amended.  The exit status of a run is decided by the first reason
    to stop that its schedule meets: none yet, no status; [main] falling off
    its end, status 0 with no failure recorded; a checked call answered
    with its failure value, status 1 with that call's failure recorded;
    [main] finding [cq_tail != 1], status 1 with [expected cq_tail==1]
    recorded, although no call failed.  Status 0 is exactly [main] having
    run to its end, and the sign of the completion's result plays no part:
    from the test of [cqe->res] on, [main] exits with 0 either way. *)
Theorem C8_exit_status_by_cause (f : frame) (sched : list action) :
  let s := run f sched in
  exit_status (obs s) =
    match first_stop (init f) sched with
    | None => None
    | Some Stop_returned => Some 0
    | Some _ => Some 1
    end /\
  (first_stop (init f) sched = Some Stop_returned <-> main_pc (mainl s) = M_done) /\
  (first_stop (init f) sched = Some Stop_returned -> failed (obs s) = None) /\
  (first_stop (init f) sched = Some Stop_no_completion <->
   failed (obs s) = Some (F_errx "expected cq_tail==1")) /\
  (first_stop (init f) sched = Some Stop_call_failed <->
   exists fl, failed (obs s) = Some fl /\ fl <> F_errx "expected cq_tail==1") /\
  (exit_status (obs s) = None -> main_pc (mainl s) = M_test_res ->
   forall r e, exit_status (obs (run_from s [A_main r e; A_main r e; A_main r e])) = Some 0).
Proof.
  intros s. pose proof (inv_run f sched) as I. fold s in I.
  pose proof (i_exit _ I) as He. unfold exit_ok in He.
  pose proof (run_from_stops sched (init f) eq_refl eq_refl) as Hs.
  change (run_from (init f) sched) with s in Hs.
  split; [|split; [|split; [|split; [|split]]]].
  - destruct (first_stop (init f) sched) as [[| |]|]; simpl in Hs; apply Hs.
  - destruct (first_stop (init f) sched) as [[| |]|]; simpl in Hs;
      destruct Hs as [Hx Hf]; rewrite Hx in He; split; intros H; try discriminate H;
      try reflexivity.
    + destruct He as [(H0 & _) | (_ & _ & Hp)]; [discriminate H0 | contradiction].
    + destruct He as [(H0 & _) | (_ & _ & Hp)]; [discriminate H0 | contradiction].
    + destruct He as [(_ & Hp & _) | (H1 & _)]; [exact Hp | discriminate H1].
    + destruct He as [_ Hp]. contradiction.
  - intros H. rewrite H in Hs. apply Hs.
  - destruct (first_stop (init f) sched) as [[| |]|]; simpl in Hs;
      destruct Hs as [Hx Hf]; split; intros H; try discriminate H; try reflexivity;
      try exact Hf; try (rewrite Hf in H; discriminate H).
    destruct Hf as (fl & Hf & Hne). rewrite Hf in H. inversion H. contradiction.
  - destruct (first_stop (init f) sched) as [[| |]|]; simpl in Hs;
      destruct Hs as [Hx Hf]; split; intros H; try discriminate H; try reflexivity;
      try exact Hf.
    + destruct H as (fl & H & Hne). rewrite Hf in H. inversion H. subst fl. contradiction.
    + destruct H as (fl & H & _). rewrite Hf in H. discriminate H.
    + destruct H as (fl & H & _). rewrite Hf in H. discriminate H.
  - intros Hex Hpc r e. clear I He Hs. clearbody s.
    destruct s as [f0 rg g [pc ? ? ? ? ?] h k [o ex fl lg]]. simpl in Hex, Hpc. subst.
    unfold run_from. cbn [fold_left]. unfold step at 3. cbn.
    destruct (cqe_res (cqe0 rg) <? 0); reflexivity.
Qed.

Lemma C8_witness :
  exit_status (obs (run_from (run frame0 (firstn 31 (sched_race (-1))))
                      [A_main 0 0; A_main 0 0; A_main 0 0])) = Some 0.
Proof.
  apply (proj2 (proj2 (proj2 (proj2 (proj2
           (C8_exit_status_by_cause frame0 (firstn 31 (sched_race (-1))))))))).
  - vm_compute. reflexivity.
  - vm_compute. reflexivity.
Defined.

(** ** C9: the overwrite touches the opcode only *)

(** From the moment the handler has seen the fault, [main] is inside or
    past [io_uring_enter]. *)
Lemma observed_after_enter s :
  Inv s -> hpc_waiting (handler_pc (hand s)) = false ->
  (17 <= main_rank (main_pc (mainl s)))%nat.
Proof.
  intros I Hw. pose proof (i_compat _ I) as Hc. pose proof (i_kmain _ I) as Hk.
  apply Nat.leb_le.
  destruct (handler_pc (hand s)); try discriminate Hw; simpl in Hc;
    destruct (kstate (kern s)); simpl in Hc, Hk;
    try exact Hk; destruct Hc as (_ & _ & Hc); discriminate Hc.
Qed.

Lemma mutated_not_waiting h : hpc_mutated h = true -> hpc_waiting h = false.
Proof. destruct h; simpl; intros H; try reflexivity; discriminate H. Qed.

Lemma has_mutate_iff s : Inv s -> has KMutate (log (obs s)) = hpc_mutated (handler_pc (hand s)).
Proof.
  intros I. rewrite has_count, (i_c_mut _ I). destruct (hpc_mutated _); reflexivity.
Qed.

(** C9.  Line 69 changes the opcode of [sqes[0]] and nothing else in ring
    memory: every other member of the entry, and the index array, both
    tails and the completion entry, are as before.  In every run, once the
    overwrite has happened, [sqes[0]] is the descriptor [main] submitted,
    with its [fd] (the socket) and its [addr] (the address of [msg]), and
    the opcode [IORING_OP_SENDMSG]. *)
Theorem C9_mutation_frame :
  (forall r,
     sqe0 (mutate_submitted r) = set_opcode IORING_OP_SENDMSG (sqe0 r) /\
     flags (sqe0 (mutate_submitted r)) = flags (sqe0 r) /\
     ioprio (sqe0 (mutate_submitted r)) = ioprio (sqe0 r) /\
     fd (sqe0 (mutate_submitted r)) = fd (sqe0 r) /\
     off (sqe0 (mutate_submitted r)) = off (sqe0 r) /\
     addr (sqe0 (mutate_submitted r)) = addr (sqe0 r) /\
     len (sqe0 (mutate_submitted r)) = len (sqe0 r) /\
     msg_flags (sqe0 (mutate_submitted r)) = msg_flags (sqe0 r) /\
     user_data (sqe0 (mutate_submitted r)) = user_data (sqe0 r) /\
     buf_index (sqe0 (mutate_submitted r)) = buf_index (sqe0 r) /\
     sq_array0 (mutate_submitted r) = sq_array0 r /\
     sq_tail (mutate_submitted r) = sq_tail r /\
     cq_tail (mutate_submitted r) = cq_tail r /\
     cqe0 (mutate_submitted r) = cqe0 r) /\
  (forall f sched,
     has KMutate (log (obs (run f sched))) = true ->
     sqe0 (ring (run f sched)) =
       set_opcode IORING_OP_SENDMSG
         (benign_sqe (sock (mainl (run f sched))) (addr_msg f)) /\
     fd (sqe0 (ring (run f sched))) = sock (mainl (run f sched)) /\
     addr (sqe0 (ring (run f sched))) = addr_msg f).
Proof.
  split.
  - intros r. repeat split.
  - intros f sched Hm. pose proof (inv_run f sched) as I.
    rewrite (has_mutate_iff _ I) in Hm.
    pose proof (observed_after_enter _ I (mutated_not_waiting _ Hm)) as Hr.
    pose proof (i_sqe _ I) as Hs. rewrite Hm, (frm_run f sched) in Hs.
    assert (H14 : (14 <=? main_rank (main_pc (mainl (run f sched))))%nat = true)
      by (apply Nat.leb_le; lia).
    rewrite H14 in Hs. rewrite Hs. repeat split.
Qed.

Lemma C9_witness :
  fd (sqe0 (ring (run frame0 (sched_race 32)))) = sock (mainl (run frame0 (sched_race 32))) /\
  addr (sqe0 (ring (run frame0 (sched_race 32)))) = addr_msg frame0.
Proof.
  assert (H : has KMutate (log (obs (run frame0 (sched_race 32)))) = true)
    by (vm_compute; reflexivity).
  exact (proj2 (proj2 C9_mutation_frame frame0 (sched_race 32) H)).
Defined.

(** ** C10: what the page is filled with *)

Lemma le_bytes_length n v : List.length (le_bytes n v) = n.
Proof. revert v. induction n as [|n IH]; intros v; simpl; [reflexivity | rewrite IH; reflexivity]. Qed.






(** * Further properties of the program *)

(** ** The handler works on what [main] stored *)

Lemma rank_step s a :
  (main_rank (main_pc (mainl s)) <= main_rank (main_pc (mainl (step s a))))%nat.
Proof.
  rewrite main_pc_step. destruct (exit_status (obs s)); [lia|].
  destruct a as [r e|r e|k]; try lia.
  destruct s as [f rg g [pc ? ? ? ? ?] h k o].
  unfold main_step, SYSCHK. cbn [main_pc mainl].
  destruct pc; break_conds; simpl; lia.
Qed.

Lemma iov_step s a :
  main_pc (mainl s) <> M_mmap_iov -> iov (glob (step s a)) = iov (glob s).
Proof.
  intros Hpc. unfold step. destruct (exit_status (obs s)); [reflexivity|].
  destruct a as [r e|r e|k].
  - destruct s as [f rg g [pc ? ? ? ? ?] h k o]. simpl in Hpc.
    unfold main_step, SYSCHK. cbn [main_pc mainl].
    destruct pc; break_conds; try reflexivity. contradiction.
  - unfold handler_step.
    destruct (handler_pc (hand s)); try (break_ifs; reflexivity).
    destruct (populate _ _ _ _ _) as [[fl|] k']; reflexivity.
  - unfold kernel_step, post_completion.
    destruct k, (kstate (kern s)); break_ifs; reflexivity.
Qed.

Lemma uffd_step s a :
  main_pc (mainl s) <> M_userfaultfd -> uffd (glob (step s a)) = uffd (glob s).
Proof.
  intros Hpc. unfold step. destruct (exit_status (obs s)); [reflexivity|].
  destruct a as [r e|r e|k].
  - destruct s as [f rg g [pc ? ? ? ? ?] h k o]. simpl in Hpc.
    unfold main_step, SYSCHK. cbn [main_pc mainl].
    destruct pc; break_conds; try reflexivity. contradiction.
  - unfold handler_step.
    destruct (handler_pc (hand s)); try (break_ifs; reflexivity).
    destruct (populate _ _ _ _ _) as [[fl|] k']; reflexivity.
  - unfold kernel_step, post_completion.
    destruct k, (kstate (kern s)); break_ifs; reflexivity.
Qed.

(** Once [main] is past the two assignments, [iov] and [uffd] keep their
    values. *)
Lemma iov_frozen post :
  forall s, (5 <= main_rank (main_pc (mainl s)))%nat ->
  iov (glob (run_from s post)) = iov (glob s).
Proof.
  induction post as [|a t IH]; intros s Hr; [reflexivity|].
  change (run_from s (a :: t)) with (run_from (step s a) t).
  rewrite IH by (pose proof (rank_step s a); lia).
  apply iov_step. intros Hpc. rewrite Hpc in Hr. simpl in Hr. lia.
Qed.

Lemma uffd_frozen post :
  forall s, (6 <= main_rank (main_pc (mainl s)))%nat ->
  uffd (glob (run_from s post)) = uffd (glob s).
Proof.
  induction post as [|a t IH]; intros s Hr; [reflexivity|].
  change (run_from s (a :: t)) with (run_from (step s a) t).
  rewrite IH by (pose proof (rank_step s a); lia).
  apply uffd_step. intros Hpc. rewrite Hpc in Hr. simpl in Hr. lia.
Qed.

Lemma handler_needs_rank f sched :
  handler_pc (hand (run f sched)) <> H_off ->
  (9 <= main_rank (main_pc (mainl (run f sched))))%nat.
Proof.
  intros Hh. pose proof (i_hoff _ (inv_run f sched)) as Ho.
  destruct (Nat.ltb_spec (main_rank (main_pc (mainl (run f sched)))) 9) as [Hlt|Hge];
    [|exact Hge].
  exfalso. apply Hh. destruct (handler_pc (hand (run f sched))); try discriminate Ho.
  reflexivity.
Qed.

(** X1.  The file-scope variables that [uffd_thread] uses without any
    check hold what [main] stored in them.  In a run in which the handler
    thread exists: the reply [r] that [main] got from the [mmap] of line 97
    was not [MAP_FAILED], [iov] is that address, the range registered with
    the userfaultfd starts there and is one page long, and every
    [UFFDIO_COPY] the handler issues has it as destination; the reply that
    [main] got from [userfaultfd] was not -1, and [uffd] is that reply
    converted to [int]. *)
Theorem X1_handler_uses_what_main_stored
    (f : frame) (pre : list action) (r e : Z) (post : list action) :
  let s0 := run f pre in
  let s := run f (pre ++ A_main r e :: post) in
  handler_pc (hand s) <> H_off ->
  (main_pc (mainl s0) = M_mmap_iov ->
   r <> -1 /\ iov (glob s) = r /\
   uffd_range (kern s) = Some (r, page_len) /\
   forall dst len src, In (EvPopulate dst len src) (log (obs s)) -> dst = r) /\
  (main_pc (mainl s0) = M_userfaultfd ->
   r <> -1 /\ uffd (glob s) = wrap_int r).
Proof.
  intros s0 s Hh.
  pose proof (handler_needs_rank f _ Hh) as Hr9. fold s in Hr9.
  pose proof (inv_run f (pre ++ A_main r e :: post)) as I. fold s in I.
  assert (Hs : s = run_from (step s0 (A_main r e)) post).
  { unfold s, s0, run. rewrite run_from_app. reflexivity. }
  assert (Hstop : forall c, exit_status (obs s0) = Some c -> s = s0).
  { intros c Hc. rewrite Hs, (step_exited _ _ _ Hc). apply (run_from_exited _ _ _ Hc). }
  assert (Hdie : forall fl, s = die fl s0 -> main_pc (mainl s) = main_pc (mainl s0)).
  { intros fl ->. reflexivity. }
  split; intros Hpc.
  - destruct (exit_status (obs s0)) as [c|] eqn:Hex.
    { exfalso. rewrite (Hstop c eq_refl), Hpc in Hr9. simpl in Hr9. lia. }
    assert (Hstep : step s0 (A_main r e) =
                    if r =? -1 then die (F_syschk C_mmap_iov e) s0
                    else goto M_userfaultfd (upd_glob (set_iov r) s0)).
    { unfold step. rewrite Hex. unfold main_step. rewrite Hpc. reflexivity. }
    destruct (r =? -1) eqn:Er.
    { exfalso. rewrite Hstep in Hs.
      rewrite (run_from_exited _ post 1) in Hs by reflexivity.
      rewrite (Hdie _ Hs), Hpc in Hr9. simpl in Hr9. lia. }
    apply Z.eqb_neq in Er. split; [exact Er|].
    assert (Hiov : iov (glob s) = r).
    { rewrite Hs, iov_frozen by (rewrite Hstep; simpl; lia).
      rewrite Hstep. reflexivity. }
    split; [exact Hiov|]. split.
    + rewrite (i_range _ I), Hiov.
      replace (8 <=? main_rank (main_pc (mainl s)))%nat with true
        by (symmetry; apply Nat.leb_le; lia).
      reflexivity.
    + intros dst len src Hin. pose proof (i_pop _ I) as Hp.
      rewrite Forall_forall in Hp. specialize (Hp _ Hin). simpl in Hp.
      rewrite Hiov in Hp. apply Hp.
  - destruct (exit_status (obs s0)) as [c|] eqn:Hex.
    { exfalso. rewrite (Hstop c eq_refl), Hpc in Hr9. simpl in Hr9. lia. }
    assert (Hstep : step s0 (A_main r e) =
                    if r =? -1 then die (F_syschk C_userfaultfd e) s0
                    else goto M_uffdio_api (upd_glob (set_uffd (wrap_int r)) s0)).
    { unfold step. rewrite Hex. unfold main_step. rewrite Hpc. reflexivity. }
    destruct (r =? -1) eqn:Er.
    { exfalso. rewrite Hstep in Hs.
      rewrite (run_from_exited _ post 1) in Hs by reflexivity.
      rewrite (Hdie _ Hs), Hpc in Hr9. simpl in Hr9. lia. }
    apply Z.eqb_neq in Er. split; [exact Er|].
    rewrite Hs, uffd_frozen by (rewrite Hstep; simpl; lia).
    rewrite Hstep. reflexivity.
Qed.

Lemma X1_witness :
  iov (glob (run frame0 (firstn 4 sched_setup ++ A_main 0x7f0000004000 0
                           :: skipn 5 sched_setup))) = 0x7f0000004000 /\
  uffd_range (kern (run frame0 (firstn 4 sched_setup ++ A_main 0x7f0000004000 0
                                  :: skipn 5 sched_setup)))
    = Some (0x7f0000004000, page_len).
Proof.
  assert (H : handler_pc (hand (run frame0 (firstn 4 sched_setup ++ A_main 0x7f0000004000 0
                                              :: skipn 5 sched_setup))) <> H_off)
    by (vm_compute; discriminate).
  assert (Hpc : main_pc (mainl (run frame0 (firstn 4 sched_setup))) = M_mmap_iov)
    by (vm_compute; reflexivity).
  pose proof (proj1 (X1_handler_uses_what_main_stored frame0 (firstn 4 sched_setup)
                       0x7f0000004000 0 (skipn 5 sched_setup) H) Hpc) as (_ & H1 & H2 & _).
  split; [exact H1 | exact H2].
Defined.

(** ** Where a failure stops the program *)

(** The calls [main] makes before it submits anything. *)
Definition setup_call (c : call) : bool :=
  match c with
  | C_io_uring_enter | C_read_uffd | C_uffdio_copy => false
  | _ => true
  end.

(** X2.  When the process died in [SYSCHK] on one of [main]'s set-up calls
    (io_uring_setup, the four mmaps, userfaultfd, the two uffd ioctls,
    socket), it exited with status 1 before anything reached the kernel's
    ring: the submission tail is 0, nothing was submitted, the consumer never
    saw a request, the opcode was never overwritten and the trapped page is
    still missing. *)
Theorem X2_setup_failure_submits_nothing (f : frame) (sched : list action) (c : call) (e : Z) :
  failed (obs (run f sched)) = Some (F_syschk c e) -> setup_call c = true ->
  exit_status (obs (run f sched)) = Some 1 /\
  sq_tail (ring (run f sched)) = 0 /\
  count KSubmit (log (obs (run f sched))) = O /\
  kstate (kern (run f sched)) = K_idle /\
  has KMutate (log (obs (run f sched))) = false /\
  trap (kern (run f sched)) = None.
Proof.
  intros Hf Hc. pose proof (inv_run f sched) as I. pose proof (inv2_run f sched) as J.
  pose proof (j_stop _ J) as Hs. rewrite Hf in Hs.
  pose proof (i_exit _ I) as He. pose proof (i_sqt _ I) as Ht.
  pose proof (i_c_submit _ I) as Hn. pose proof (i_kmain _ I) as Hk.
  pose proof (i_compat _ I) as Hcp. pose proof (i_c_mut _ I) as Hm.
  assert (Hr : (main_rank (main_pc (mainl (run f sched))) <= 9)%nat).
  { destruct c; try discriminate Hc; simpl in Hs; rewrite Hs; simpl; lia. }
  assert (H16 : (16 <=? main_rank (main_pc (mainl (run f sched))))%nat = false)
    by (apply Nat.leb_gt; lia).
  assert (H17 : (17 <=? main_rank (main_pc (mainl (run f sched))))%nat = false)
    by (apply Nat.leb_gt; lia).
  rewrite H16 in Ht, Hn. rewrite H17, orb_false_r in Hk.
  destruct (kstate (kern (run f sched))) eqn:Hks; try discriminate Hk.
  split.
  { unfold exit_ok in He. rewrite Hf in He.
    destruct (exit_status (obs (run f sched))) as [x|].
    - destruct He as [(_ & _ & H0) | (-> & _)]; [discriminate H0 | reflexivity].
    - destruct He as [H0 _]. discriminate H0. }
  split; [exact Ht|]. split; [exact Hn|]. split; [reflexivity|].
  rewrite has_count, Hm. unfold compat in Hcp.
  destruct (handler_pc (hand (run f sched))); simpl;
    try (destruct Hcp as (_ & _ & Hb); discriminate Hb);
    try (destruct Hcp as (_ & _ & Hb); discriminate Hb);
    destruct Hcp as (Htr & _); split; try reflexivity; exact Htr.
Qed.

Lemma X2_witness :
  exit_status (obs (run frame0 [A_main 3 0; A_main (-1) 12])) = Some 1 /\
  sq_tail (ring (run frame0 [A_main 3 0; A_main (-1) 12])) = 0.
Proof.
  assert (H : failed (obs (run frame0 [A_main 3 0; A_main (-1) 12])) =
              Some (F_syschk C_mmap_sq_ring 12)) by (vm_compute; reflexivity).
  destruct (X2_setup_failure_submits_nothing frame0 _ _ _ H eq_refl) as (H1 & H2 & _).
  split; [exact H1 | exact H2].
Defined.

(** X3.  A failure in the fault handler.  If [read] on the userfaultfd
    failed or returned a short message, the opcode was not overwritten and
    the page was not filled.  If [UFFDIO_COPY] failed, the opcode is already
    [IORING_OP_SENDMSG] while the page is still missing: the consumer is
    still blocked on it and nothing was completed. *)
Theorem X3_handler_failure_effects (f : frame) (sched : list action) :
  ((exists e, failed (obs (run f sched)) = Some (F_syschk C_read_uffd e)) \/
   failed (obs (run f sched)) = Some (F_errx "uffd read") ->
   has KMutate (log (obs (run f sched))) = false /\
   opcode (sqe0 (ring (run f sched))) <> IORING_OP_SENDMSG /\
   trap (kern (run f sched)) = None) /\
  (forall e, failed (obs (run f sched)) = Some (F_syschk C_uffdio_copy e) ->
   opcode (sqe0 (ring (run f sched))) = IORING_OP_SENDMSG /\
   trap (kern (run f sched)) = None /\
   k_is_blocked (kstate (kern (run f sched))) = true /\
   has KResumed (log (obs (run f sched))) = false /\
   has KComplete (log (obs (run f sched))) = false).
Proof.
  pose proof (inv_run f sched) as I. pose proof (inv2_run f sched) as J.
  pose proof (j_stop _ J) as Hs. pose proof (i_compat _ I) as Hcp.
  pose proof (i_c_mut _ I) as Hm. pose proof (i_sqe _ I) as Hq.
  pose proof (i_c_res _ I) as Hres. pose proof (i_c_comp _ I) as Hcomp.
  split.
  - intros Hf.
    assert (Hh : handler_pc (hand (run f sched)) = H_read).
    { destruct Hf as [[e Hf] | Hf]; rewrite Hf in Hs; simpl in Hs; [exact Hs|].
      destruct Hs as [(Hx & _) | [(_ & Hx) | (Hx & _)]]; try discriminate Hx. exact Hx. }
    rewrite Hh in Hcp, Hm, Hq. simpl in Hcp, Hm. unfold hpc_mutated in Hq.
    split; [rewrite has_count, Hm; reflexivity|]. split; [|apply Hcp].
    rewrite Hq. destruct (14 <=? _)%nat; simpl; discriminate.
  - intros e Hf. rewrite Hf in Hs. simpl in Hs.
    rewrite Hs in Hcp, Hm, Hq, Hres. simpl in Hcp, Hm. unfold hpc_mutated in Hq.
    destruct Hcp as (Htr & _ & Hb).
    assert (Hr : (17 <= main_rank (main_pc (mainl (run f sched))))%nat).
    { apply observed_after_enter; [exact I | rewrite Hs; reflexivity]. }
    replace (14 <=? main_rank (main_pc (mainl (run f sched))))%nat with true in Hq
      by (symmetry; apply Nat.leb_le; lia).
    destruct (kstate (kern (run f sched))) eqn:Hk; try discriminate Hb.
    simpl in Hres, Hcomp.
    rewrite Hq. repeat split; try assumption.
    + rewrite has_count, Hres. reflexivity.
    + rewrite has_count, Hcomp. reflexivity.
Qed.

(** The fault is taken, the handler overwrites the opcode, and then
    [UFFDIO_COPY] is refused. *)
Definition sched_copy_fails : list action :=
  sched_setup ++ [A_kernel K_accept; A_kernel K_touch]
  ++ [A_handler sizeof_uffd_msg 0; A_handler 0 0; A_handler 0 0; A_handler 0 0;
      A_handler (-1) 14].

Lemma X3_witness :
  opcode (sqe0 (ring (run frame0 sched_copy_fails))) = IORING_OP_SENDMSG /\
  trap (kern (run frame0 sched_copy_fails)) = None.
Proof.
  assert (H : failed (obs (run frame0 sched_copy_fails)) = Some (F_syschk C_uffdio_copy 14))
    by (vm_compute; reflexivity).
  destruct (proj2 (X3_handler_failure_effects frame0 sched_copy_fails) 14 H)
    as (H1 & H2 & _).
  split; [exact H1 | exact H2].
Defined.

(** ** What the consumer reads, twice *)

(** X4.  In every run the consumer's first read of [sqes[0].opcode] sees
    [IORING_OP_RECVMSG].  A completion, once posted, carries the
    [user_data] 0 of the descriptor and the result now in the completion
    entry, with the completion tail at 1; and the opcode the consumer acted
    on is [IORING_OP_SENDMSG] exactly when it had faulted on the trapped
    page, [IORING_OP_RECVMSG] when it completed without touching it. *)
Theorem X4_double_fetch (f : frame) (sched : list action) :
  (forall op, In (EvConsumerRead1 op) (log (obs (run f sched))) ->
     op = IORING_OP_RECVMSG) /\
  (forall op ud res, In (EvComplete op ud res) (log (obs (run f sched))) ->
     ud = 0 /\ res = cqe_res (cqe0 (ring (run f sched))) /\
     cq_tail (ring (run f sched)) = 1 /\
     op = if has KFault (log (obs (run f sched)))
          then IORING_OP_SENDMSG else IORING_OP_RECVMSG).
Proof.
  pose proof (inv_run f sched) as I. pose proof (inv2_run f sched) as J.
  split.
  - intros op Hin. pose proof (j_read1 _ J) as HF. rewrite Forall_forall in HF.
    exact (HF _ Hin).
  - intros op ud res Hin. pose proof (j_comp _ J) as HF. rewrite Forall_forall in HF.
    specialize (HF _ Hin). simpl in HF. destruct HF as (-> & -> & ->).
    apply in_has in Hin. simpl in Hin. apply count_pos_has in Hin.
    rewrite (i_c_comp _ I) in Hin. pose proof (i_cqt _ I) as Ht.
    pose proof (i_c_fault _ I) as Hfc.
    destruct (kstate (kern (run f sched))); simpl in Hin; try lia.
    simpl in Ht, Hfc. rewrite has_count, Hfc.
    repeat split; try assumption.
    destruct (hpc_done (handler_pc (hand (run f sched)))); reflexivity.
Qed.

Lemma X4_witness :
  In (EvComplete IORING_OP_SENDMSG 0 32) (log (obs (run frame0 (sched_race 32)))) /\
  IORING_OP_SENDMSG =
    (if has KFault (log (obs (run frame0 (sched_race 32))))
     then IORING_OP_SENDMSG else IORING_OP_RECVMSG).
Proof.
  assert (H : In (EvComplete IORING_OP_SENDMSG 0 32) (log (obs (run frame0 (sched_race 32)))))
    by (vm_compute; do 7 right; left; reflexivity).
  destruct (proj2 (X4_double_fetch frame0 (sched_race 32)) _ _ _ H) as (_ & _ & _ & H4).
  split; [exact H | exact H4].
Defined.

(** ** What the program prints *)

(** X5.  In every run that exits with status 0, [main] has printed
    exactly three lines, in this order: the number of submissions
    [io_uring_enter] returned, [cq_tail = 1], and the result of the posted
    completion, in the form with [strerror] exactly when it is negative;
    the count and the result are values of an [int], and [strerror] gets
    the [int] negation of the result (for [INT_MIN], [INT_MIN] again).
    The handler's line is printed at most once, only after the fault was
    observed, and always before the opcode is overwritten. *)
Theorem X5_report (f : frame) (sched : list action) :
  (exit_status (obs (run f sched)) = Some 0 ->
   main_lines (out (obs (run f sched))) =
     [L_submitted (submitted (mainl (run f sched))); L_cq_tail 1;
      result_line (cqe_res (cqe0 (ring (run f sched))))] /\
   int_range (submitted (mainl (run f sched))) /\
   int_range (cqe_res (cqe0 (ring (run f sched)))) /\
   (cqe_res (cqe0 (ring (run f sched))) = - 2 ^ 31 ->
    result_line (cqe_res (cqe0 (ring (run f sched)))) =
      L_result_err (- 2 ^ 31) (- 2 ^ 31)) /\
   exists op, In (EvComplete op 0 (cqe_res (cqe0 (ring (run f sched)))))
                 (log (obs (run f sched)))) /\
  (got_lines (out (obs (run f sched))) <= 1)%nat /\
  (got_lines (out (obs (run f sched))) = 1%nat ->
   has KObserved (log (obs (run f sched))) = true) /\
  (has KMutate (log (obs (run f sched))) = true ->
   got_lines (out (obs (run f sched))) = 1%nat).
Proof.
  pose proof (inv_run f sched) as I. pose proof (inv2_run f sched) as J.
  pose proof (j_got _ J) as Hg. pose proof (i_c_obs _ I) as Ho.
  pose proof (i_c_mut _ I) as Hm.
  split; [|split; [|split]].
  - intros Hex. pose proof (i_exit _ I) as He. rewrite Hex in He. simpl in He.
    destruct He as [(_ & Hpc & _) | (H10 & _)]; [|discriminate H10].
    pose proof (j_out _ J) as Hout. pose proof (i_cqtl1 _ I) as H1.
    pose proof (i_cqtl _ I) as H2. pose proof (i_c_comp _ I) as Hc.
    rewrite Hpc in Hout, H1, H2. specialize (H1 eq_refl). specialize (H2 eq_refl H1).
    rewrite H1 in Hout. split; [exact Hout|].
    split; [exact (j_int_subm _ J)|]. split; [exact (j_int_res _ J)|].
    split; [intros ->; reflexivity|].
    rewrite H2 in Hc.
    assert (Hh : has KComplete (log (obs (run f sched))) = true)
      by (apply count_pos_has; lia).
    destruct (has_in _ _ Hh) as [ev [Hin Hk]].
    pose proof (j_comp _ J) as HF. rewrite Forall_forall in HF. specialize (HF _ Hin).
    destruct ev; try discriminate Hk. simpl in HF. destruct HF as (-> & -> & _).
    eexists. exact Hin.
  - rewrite Hg. destruct (hpc_printed _); lia.
  - intros H1. rewrite has_count, Ho. rewrite Hg in H1.
    destruct (handler_pc (hand (run f sched))); simpl in *; try discriminate H1; reflexivity.
  - intros H1. rewrite has_count, Hm in H1. rewrite Hg.
    destruct (handler_pc (hand (run f sched))); simpl in *; try discriminate H1; reflexivity.
Qed.

Lemma X5_witness :
  main_lines (out (obs (run frame0 (sched_no_fault (- 2 ^ 31))))) =
    [L_submitted 1; L_cq_tail 1; L_result_err (-2147483648) (-2147483648)].
Proof.
  assert (H : exit_status (obs (run frame0 (sched_no_fault (- 2 ^ 31)))) = Some 0)
    by (vm_compute; reflexivity).
  destruct (proj1 (X5_report frame0 (sched_no_fault (- 2 ^ 31))) H) as [H1 _].
  rewrite H1. vm_compute. reflexivity.
Defined.

(** ** The page image reads back as the iovec *)

(** Environment: how a reader of the page takes a little-endian integer
    and a [struct iovec] out of it. *)
Fixpoint le_value (bs : list Z) : Z :=
  match bs with
  | [] => 0
  | b :: t => b + 256 * le_value t
  end.

Definition decode_iovec (page : list Z) : iovec :=
  mk_iovec (le_value (firstn 8 page)) (le_value (firstn 8 (skipn 8 page))).

Lemma le_value_le_bytes n v : le_value (le_bytes n v) = v mod 256 ^ Z.of_nat n.
Proof.
  revert v. induction n as [|n IH]; intros v.
  - simpl. rewrite Z.mod_1_r. reflexivity.
  - cbn [le_bytes le_value]. rewrite IH, Nat2Z.inj_succ, Z.pow_succ_r by lia.
    rewrite Z.rem_mul_r by lia. reflexivity.
Qed.

Lemma le_bytes_range n v : Forall (fun b => 0 <= b < 256) (le_bytes n v).
Proof.
  revert v. induction n as [|n IH]; intros v; simpl; constructor.
  - apply Z.mod_pos_bound. lia.
  - apply IH.
Qed.

(** X6.  The 0x1000 bytes built from an iovec [v] in [uffd_thread] are
    bytes (each in 0..255), and a reader of the page gets [v] back from its
    first sixteen bytes whenever the pointer and the length fit 64 bits.
    In every run, what a present page reads back as is
    [{&msgbuf, sizeof(msgbuf)}]. *)
Theorem X6_page_reads_back :
  (forall v, 0 <= iov_base v < 2 ^ 64 -> 0 <= iov_len v < 2 ^ 64 ->
     decode_iovec (vec_bytes v) = v /\
     Forall (fun b => 0 <= b < 256) (vec_bytes v)) /\
  (forall f sched b,
     0 <= addr_msgbuf f < 2 ^ 64 -> trap (kern (run f sched)) = Some b ->
     decode_iovec b = mk_iovec (addr_msgbuf f) sizeof_msgbuf).
Proof.
  assert (Hdec : forall v, 0 <= iov_base v < 2 ^ 64 -> 0 <= iov_len v < 2 ^ 64 ->
                           decode_iovec (vec_bytes v) = v).
  { intros [b l] Hb Hl. simpl in Hb, Hl. unfold decode_iovec, vec_bytes, encode_iovec.
    rewrite <- !app_assoc.
    rewrite firstn_app, le_bytes_length, Nat.sub_diag, firstn_O, app_nil_r.
    rewrite firstn_all2 by (rewrite le_bytes_length; apply Nat.le_refl).
    rewrite skipn_app, le_bytes_length, Nat.sub_diag.
    rewrite skipn_all2 by (rewrite le_bytes_length; apply Nat.le_refl).
    cbn [skipn app].
    rewrite firstn_app, le_bytes_length, Nat.sub_diag, firstn_O, app_nil_r.
    rewrite firstn_all2 by (rewrite le_bytes_length; apply Nat.le_refl).
    rewrite !le_value_le_bytes. cbn [iov_base iov_len].
    change (256 ^ Z.of_nat 8) with (2 ^ 64).
    rewrite !Z.mod_small by assumption. reflexivity. }
  split.
  - intros v Hb Hl. split; [apply Hdec; assumption|].
    unfold vec_bytes, encode_iovec. repeat (apply Forall_app; split).
    + apply le_bytes_range.
    + apply le_bytes_range.
    + apply Forall_forall. intros x Hx. apply repeat_spec in Hx. subst x. lia.
  - intros f sched b Hb Htr. pose proof (inv_run f sched) as I.
    pose proof (i_compat _ I) as Hc. pose proof (i_vec _ I) as Hv.
    unfold compat in Hc. rewrite Htr in Hc.
    destruct (handler_pc (hand (run f sched)));
      try (destruct Hc as [Hc _]; discriminate Hc).
    destruct Hc as [Hc _]. simpl in Hv. rewrite (frm_run f sched) in Hv.
    assert (Eb : b = vec_bytes (true_iov f)) by congruence.
    rewrite Eb. apply Hdec; simpl; [exact Hb | unfold sizeof_msgbuf; simpl; lia].
Qed.

Lemma X6_witness :
  decode_iovec (vec_bytes (mk_iovec 0x7ffc00001100 32)) = mk_iovec 0x7ffc00001100 32.
Proof.
  apply (proj1 X6_page_reads_back (mk_iovec 0x7ffc00001100 32)); simpl; lia.
Defined.

(** ** The two [errx] exits of [main] *)

(** [io_uring_enter] is let back before any completion is posted. *)
Definition sched_interrupted : list action :=
  sched_setup ++ [A_kernel K_accept; A_kernel K_interrupt]
  ++ [A_main 1 0; A_main 0 0; A_main 0 0; A_main 0 0; A_main 0 0].

(** X8.  When [pthread_create] fails, the process stops with no handler
    thread and nothing submitted.  When the process stops on
    [expected cq_tail==1], the tail it read was 0: [io_uring_enter] came
    back before a completion was posted; by then [main] has printed the
    submission count and [cq_tail = 0], and it never looked at the
    completion entry. *)
Theorem X8_errx_exits (f : frame) (sched : list action) :
  (failed (obs (run f sched)) = Some (F_errx "pthread_create") ->
   handler_pc (hand (run f sched)) = H_off /\
   sq_tail (ring (run f sched)) = 0 /\
   count KSubmit (log (obs (run f sched))) = O) /\
  (failed (obs (run f sched)) = Some (F_errx "expected cq_tail==1") ->
   cq_tail_l (mainl (run f sched)) = 0 /\
   main_lines (out (obs (run f sched))) =
     [L_submitted (submitted (mainl (run f sched))); L_cq_tail 0] /\
   count KLoad (log (obs (run f sched))) = O).
Proof.
  pose proof (inv_run f sched) as I. pose proof (inv2_run f sched) as J.
  pose proof (j_stop _ J) as Hs. split; intros Hf; rewrite Hf in Hs; simpl in Hs.
  - destruct Hs as [(_ & Hpc) | [(Hx & _) | (Hx & _)]]; try discriminate Hx.
    pose proof (i_hoff _ I) as Ho. pose proof (i_sqt _ I) as Ht.
    pose proof (i_c_submit _ I) as Hn. rewrite Hpc in Ho, Ht, Hn.
    split; [|split; assumption].
    destruct (handler_pc (hand (run f sched))); try discriminate Ho. reflexivity.
  - destruct Hs as [(Hx & _) | [(Hx & _) | (_ & Hpc & Hne)]]; try discriminate Hx.
    pose proof (j_cqtl01 _ J) as H01. pose proof (j_out _ J) as Hout.
    pose proof (i_c_load _ I) as Hl. rewrite Hpc in H01, Hout, Hl.
    destruct (H01 eq_refl) as [H0 | H1]; [|contradiction].
    rewrite H0 in Hout. split; [exact H0|]. split; [exact Hout | exact Hl].
Qed.

Lemma X8_witness :
  main_lines (out (obs (run frame0 sched_interrupted))) = [L_submitted 1; L_cq_tail 0].
Proof.
  assert (H : failed (obs (run frame0 sched_interrupted)) =
              Some (F_errx "expected cq_tail==1")) by (vm_compute; reflexivity).
  destruct (proj2 (X8_errx_exits frame0 sched_interrupted) H) as (_ & H2 & _).
  rewrite H2. vm_compute. reflexivity.
Defined.

(** ** The race runs to its end *)

(** The values the kernel returns to the calls whose result the program
    keeps or prints. *)
Record replies := mk_replies {
  rp_uring_fd : Z; rp_sq_ring : Z; rp_cq_ring : Z; rp_sqes : Z; rp_iov : Z;
  rp_uffd : Z; rp_sock : Z; rp_submitted : Z
}.

Definition replies_ok (rp : replies) : Prop :=
  rp_uring_fd rp <> -1 /\ rp_sq_ring rp <> -1 /\ rp_cq_ring rp <> -1 /\
  rp_sqes rp <> -1 /\ rp_iov rp <> -1 /\ rp_uffd rp <> -1 /\ rp_sock rp <> -1 /\
  rp_submitted rp <> -1.

(** The schedule of [sched_race] with the replies left open: [main] sets
    up and enters [io_uring_enter], the consumer takes the request and
    faults, the handler runs through, the consumer resumes and completes
    with [res], [main] reports. *)
Definition sched_race_with (rp : replies) (res : Z) : list action :=
  [ A_main (rp_uring_fd rp) 0; A_main (rp_sq_ring rp) 0; A_main (rp_cq_ring rp) 0;
    A_main (rp_sqes rp) 0; A_main (rp_iov rp) 0; A_main (rp_uffd rp) 0;
    A_main 0 0; A_main 0 0; A_main 0 0; A_main (rp_sock rp) 0;
    A_main 0 0; A_main 0 0; A_main 0 0; A_main 0 0; A_main 0 0; A_main 0 0;
    A_main 0 0;
    A_kernel K_accept; A_kernel K_touch;
    A_handler sizeof_uffd_msg 0; A_handler 0 0; A_handler 0 0; A_handler 0 0;
    A_handler 0 0;
    A_kernel K_resume; A_kernel (K_complete res);
    A_main (rp_submitted rp) 0; A_main 0 0; A_main 0 0; A_main 0 0; A_main 0 0;
    A_main 0 0; A_main 0 0; A_main 0 0 ].

Lemma wrap_int_one : wrap_int 1 = 1.
Proof. reflexivity. Qed.

Lemma wrap_int_uffd_msg : wrap_int sizeof_uffd_msg = sizeof_uffd_msg.
Proof. reflexivity. Qed.

Opaque vec_bytes wrap_int copy_len page_len pad_len.

Lemma run_from_cons s a t : run_from s (a :: t) = run_from (step s a) t.
Proof. reflexivity. Qed.

Arguments run_from : simpl never.
Arguments step : simpl never.

Ltac sym_step :=
  rewrite run_from_cons; unfold step at 1; cbn [exit_status obs];
  first [ unfold main_step at 1 | unfold handler_step at 1
        | unfold kernel_step, post_completion ];
  cbn.

(** X7.  The race runs to its end.  For every stack frame, every result
    and every set of successful replies: when [main] sets up and enters
    [io_uring_enter], the consumer takes the request and faults, the handler
    runs its five statements, and the consumer resumes and completes with
    [res], the process exits with status 0, the output is the handler's line
    followed by [main]'s three, the consumer has acted on
    [IORING_OP_SENDMSG], and the page holds the image of
    [{&msgbuf, sizeof(msgbuf)}].  The printed count is the reply of
    [io_uring_enter] converted to [int], the printed result is the
    completion's result as an [__s32], and the socket in the descriptor is
    the reply of [socket] as an [int]. *)
Theorem X7_race_completes (f : frame) (rp : replies) (res : Z) :
  replies_ok rp ->
  let s := run f (sched_race_with rp res) in
  exit_status (obs s) = Some 0 /\
  out (obs s) = [L_got_message; L_submitted (wrap_int (rp_submitted rp)); L_cq_tail 1;
                 result_line (wrap_int res)] /\
  In (EvComplete IORING_OP_SENDMSG 0 (wrap_int res)) (log (obs s)) /\
  trap (kern s) = Some (vec_bytes (true_iov f)) /\
  cqe0 (ring s) = mk_cqe 0 (wrap_int res) 0 /\
  sqe0 (ring s) =
    set_opcode IORING_OP_SENDMSG (benign_sqe (wrap_int (rp_sock rp)) (addr_msg f)).
Proof.
  intros (H1 & H2 & H3 & H4 & H5 & H6 & H7 & H8) s.
  apply Z.eqb_neq in H1, H2, H3, H4, H5, H6, H7, H8.
  destruct rp as [r1 r2 r3 r4 r5 r6 r7 r8]. cbn [rp_uring_fd rp_sq_ring rp_cq_ring rp_sqes
    rp_iov rp_uffd rp_sock rp_submitted] in *.
  unfold result_line.
  destruct (wrap_int res <? 0) eqn:E.
  all: eassert (Hrun : run f (sched_race_with (mk_replies r1 r2 r3 r4 r5 r6 r7 r8) res) = _);
    [ unfold run, sched_race_with, init;
      cbn [rp_uring_fd rp_sq_ring rp_cq_ring rp_sqes rp_iov rp_uffd rp_sock rp_submitted];
      do 34 (sym_step; unfold SYSCHK, populate, uffdio_copy; cbn;
             rewrite ?H1, ?H2, ?H3, ?H4, ?H5, ?H6, ?H7, ?H8, ?E, ?Z.eqb_refl,
               ?in_range_base, ?copy_len_page_len, ?wrap_int_1, ?wrap_int_one,
               ?wrap_int_uffd_msg, ?cq_inc_0; cbn; rewrite ?firstn_vec_bytes);
      reflexivity | ].
  all: subst s; rewrite Hrun; clear Hrun; unfold run_from; cbn.
  all: repeat split; try reflexivity.
  all: do 7 right; left; reflexivity.
Qed.

Transparent vec_bytes wrap_int copy_len page_len pad_len.

Lemma X7_witness :
  exit_status (obs (run frame0 (sched_race_with
                                  (mk_replies 3 4096 8192 12288 16384 4 5 4294967297)
                                  (- 2 ^ 31))))
    = Some 0.
Proof.
  assert (H : replies_ok (mk_replies 3 4096 8192 12288 16384 4 5 4294967297))
    by (unfold replies_ok; simpl; repeat split; discriminate).
  exact (proj1 (X7_race_completes frame0
                  (mk_replies 3 4096 8192 12288 16384 4 5 4294967297) (- 2 ^ 31) H)).
Defined.

